(** * Contrastive loss with temperature (torchmultimodal)

    A shallow embedding of
    [torchmultimodal/modules/losses/contrastive_loss_with_temperature.py]
    and the properties its specification states about it.

    Tensor entries are idealised as real numbers: rounding, infinities
    and NaN of the floating-point dtypes are outside the model.  Shapes,
    index arithmetic, the exceptions raised on shape mismatch and the
    in-place update of the learnable parameter are modelled as the code
    has them. *)

From Stdlib Require Import Reals Lra Lia.
From stdpp Require Import base option list sorting gmap strings.

(** ** The tensor framework

    The operations of [torch] that the file calls, with their
    documented meaning.  A call that raises in [torch] is [None]. *)

Module Torch.

(** A 2-D tensor of shape [(nrows, ncols)]: the list of its rows,
    together with the column count (which a tensor with no rows still
    has). *)
Record Tensor2 : Type := mkTensor2 {
  ncols : nat;
  rows : list (list R)
}.

(** [t.size(0)] *)
Definition nrows (t : Tensor2) : nat := length (rows t).

(** Every tensor the framework hands out is rectangular. *)
Definition wf (t : Tensor2) : Prop :=
  Forall (λ r, length r = ncols t) (rows t).

(** Entry [(i, j)]. *)
Definition entry (t : Tensor2) (i j : nat) : R :=
  nth j (nth i (rows t) []) 0%R.

(** 1-D integer and boolean tensors. *)
Abbreviation LongTensor := (list nat).
Abbreviation BoolTensor := (list bool).

(** [torch.arange(n)] *)
Definition arange (n : nat) : LongTensor := seq 0 n.

(** [torch.zeros_like(t)] *)
Definition zeros_like (t : Tensor2) : Tensor2 :=
  {| ncols := ncols t; rows := map (map (λ _, 0%R)) (rows t) |}.

(** Column [j] of a tensor. *)
Definition column (t : Tensor2) (j : nat) : list R :=
  map (λ r, nth j r 0%R) (rows t).

(** [t.transpose(0, 1)] *)
Definition transpose (t : Tensor2) : Tensor2 :=
  {| ncols := nrows t; rows := map (column t) (seq 0 (ncols t)) |}.

Definition Rsum (xs : list R) : R := foldr Rplus 0%R xs.

(** Inner product of a row with a column. *)
Definition dot (u v : list R) : R := Rsum (zip_with Rmult u v).

(** [torch.matmul(a, b)] on 2-D tensors: raises unless the inner
    dimensions agree. *)
Definition matmul (a b : Tensor2) : option Tensor2 :=
  if decide (ncols a = nrows b)
  then Some {| ncols := ncols b;
               rows := map (λ r, map (λ j, dot r (column b j)) (seq 0 (ncols b)))
                           (rows a) |}
  else None.

(** [t * s] for a 0-dim tensor [s]. *)
Definition mul_scalar (t : Tensor2) (s : R) : Tensor2 :=
  {| ncols := ncols t; rows := map (map (λ x, (x * s)%R)) (rows t) |}.

(** [torch.cat(ts)] along dimension 0: raises on an empty list and
    when the pieces disagree on the other dimension. *)
Definition cat (ts : list Tensor2) : option Tensor2 :=
  match ts with
  | [] => None
  | t :: _ =>
      if decide (Forall (λ t', ncols t' = ncols t) ts)
      then Some {| ncols := ncols t; rows := concat (map rows ts) |}
      else None
  end.

(** The elements of [xs] at the positions where [mask] holds. *)
Fixpoint select {A : Type} (xs : list A) (mask : BoolTensor) : list A :=
  match xs, mask with
  | x :: xs', b :: mask' =>
      if b then x :: select xs' mask' else select xs' mask'
  | _, _ => []
  end.

(** [v[mask]] for a 1-D tensor: raises unless the mask has the shape
    of the indexed dimension. *)
Definition index_mask1 {A : Type} (v : list A) (mask : BoolTensor)
  : option (list A) :=
  if decide (length mask = length v) then Some (select v mask) else None.

(** [t[mask]] for a 2-D tensor and a 1-D mask: selects rows. *)
Definition index_mask (t : Tensor2) (mask : BoolTensor) : option Tensor2 :=
  rs ← index_mask1 (rows t) mask;
  Some {| ncols := ncols t; rows := rs |}.

(** [F.log_softmax(row)] *)
Definition log_softmax (row : list R) : list R :=
  map (λ x, (x - ln (Rsum (map exp row)))%R) row.

(** [F.cross_entropy(input, target)] with the default mean reduction:
    the negative log-likelihood of the target class of every row,
    averaged over the rows.  Raises when the batch sizes differ or a
    target is not a class index. *)
Definition cross_entropy (input : Tensor2) (target : LongTensor) : option R :=
  if decide (nrows input = length target
             ∧ Forall (λ y, y < ncols input) target)
  then Some (Rsum (zip_with (λ r y, (- nth y (log_softmax r) 0)%R)
                            (rows input) target)
             / INR (nrows input))%R
  else None.

(** [x.clamp(lo, hi)] on a scalar. *)
Definition clamp (x lo hi : R) : R := Rmin (Rmax x lo) hi.

End Torch.

Import Torch.

(** ** The distributed runtime

    [torch.distributed] as seen from one worker.  [workers] lists, in
    rank order, the image and text batches that the ranks of the group
    pass to their own call of the loss; the entry of the local rank is
    superseded by the arguments of the call under study. *)

Module Dist.

Record t : Type := mk {
  is_available : bool;
  is_initialized : bool;
  get_rank : nat;
  workers : list (Tensor2 * Tensor2)
}.

Definition get_world_size (d : t) : nat := length (workers d).

(** The two collectives of one call: the first gathers the image
    batches, the second the text batches. *)
Inductive Round : Type := Image | Text.

Definition batch_of (c : Round) (w : Tensor2 * Tensor2) : Tensor2 :=
  match c with Image => w.1 | Text => w.2 end.

(** What the ranks contribute to a collective in which the local rank
    contributes [x]. *)
Definition contributions (d : t) (c : Round) (x : Tensor2) : list Tensor2 :=
  <[get_rank d := x]> (batch_of c <$> workers d).

Definition same_shape (a b : Tensor2) : Prop :=
  nrows a = nrows b ∧ ncols a = ncols b.

(** The collective is defined when every rank contributes a tensor of
    one shape; anything else is treated as a failure. *)
Definition uniform (x : Tensor2) (received : list Tensor2) : Prop :=
  Forall (same_shape x) received.

(** [torch.distributed.nn.functional.all_gather(x)]: returns the tuple
    of the tensors of all ranks, in rank order. *)
Definition all_gather_with_backprop (d : t) (c : Round) (x : Tensor2)
  : option (list Tensor2) :=
  let received := contributions d c x in
  if decide (uniform x received) then Some received else None.

(** [torch.distributed.all_gather(tensor_list, x)]: overwrites the
    [k]-th tensor of [tensor_list] with the tensor of rank [k]; the
    result is the content of [tensor_list] afterwards.  Needs one
    buffer per rank. *)
Definition all_gather_no_backprop (d : t) (c : Round)
    (tensor_list : list Tensor2) (x : Tensor2) : option (list Tensor2) :=
  let received := contributions d c x in
  if decide (length tensor_list = get_world_size d ∧ uniform x received)
  then Some (zip_with (λ _buffer r, r) tensor_list received)
  else None.

End Dist.

(** ** Learnable parameters

    An [nn.Parameter] is an object with identity whose data is updated
    in place; here a handle into a store of scalar values. *)

Definition nn_Parameter : Type := nat.
Abbreviation Store := (gmap nat R).

(** Computations that read and update parameters and may raise.  The
    store survives an exception, as the heap does in Python. *)
Definition M (A : Type) : Type := Store → option A * Store.

Definition ret {A : Type} (a : A) : M A := λ σ, (Some a, σ).

Definition bind {A B : Type} (m : M A) (k : A → M B) : M B :=
  λ σ, match m σ with
       | (Some a, σ') => k a σ'
       | (None, σ') => (None, σ')
       end.

Definition lift {A : Type} (o : option A) : M A := λ σ, (o, σ).

Declare Scope M_scope.
Delimit Scope M_scope with M.
Notation "'let*' x ':=' m 'in' k" := (bind m (λ x, k))
  (at level 10, x pattern, m at level 100, k at level 200) : M_scope.

(** Reading the value of a parameter. *)
Definition data (p : nn_Parameter) : M R := λ σ, (σ !! p, σ).

(** [p.data.clamp_(lo, hi)] *)
Definition clamp_ (p : nn_Parameter) (lo hi : R) : M () :=
  λ σ, match σ !! p with
       | Some v => (Some (), <[p := clamp v lo hi]> σ)
       | None => (None, σ)
       end.

(** [nn.Parameter(v)]: a new object. *)
Definition new_parameter (v : R) : M nn_Parameter :=
  λ σ, let p := fresh (dom σ) in (Some p, <[p := v]> σ).

(** ** The loss output bundle (lines 18-24)

    [@dataclass class ContrastiveLossOutput(OrderedDict)].  An instance
    carries the five declared fields as attributes and, separately,
    the entries of the dictionary it inherits from.  The class body
    declares the five fields and nothing else: no [__post_init__], no
    [__iter__], no [__getitem__]. *)

Inductive Value : Type :=
  | Scalar (x : R)
  | Matrix (t : Tensor2).

Record ContrastiveLossOutput : Type := {
  loss : R;
  image_logits : Tensor2;
  text_logits : Tensor2;
  image_loss : R;
  text_loss : R;
  items : list (string * Value)
}.

(** The constructor that [@dataclass] generates assigns the five
    attributes; nothing is inserted into the inherited dictionary. *)
Definition ContrastiveLossOutput_init
    (loss : R) (image_logits text_logits : Tensor2)
    (image_loss text_loss : R) : ContrastiveLossOutput :=
  {| loss := loss; image_logits := image_logits; text_logits := text_logits;
     image_loss := image_loss; text_loss := text_loss; items := [] |}.

(** [dataclasses.fields]: the declared fields, in declaration order,
    with their values. *)
Definition fields (o : ContrastiveLossOutput) : list (string * Value) :=
  [("loss", Scalar (loss o)); ("image_logits", Matrix (image_logits o));
   ("text_logits", Matrix (text_logits o));
   ("image_loss", Scalar (image_loss o)); ("text_loss", Scalar (text_loss o))].

(** [iter(o)], inherited from [OrderedDict]: the keys of the dictionary. *)
Definition iter (o : ContrastiveLossOutput) : list string := (items o).*1.

(** The decorator is applied without [frozen=True]. *)
Definition frozen : bool := false.

(** [o.loss = v]: refused for a frozen dataclass only. *)
Definition set_loss (o : ContrastiveLossOutput) (v : R)
  : option ContrastiveLossOutput :=
  if frozen then None
  else Some {| loss := v; image_logits := image_logits o;
               text_logits := text_logits o; image_loss := image_loss o;
               text_loss := text_loss o; items := items o |}.

(** ** [_gather_embeddings_and_labels] (lines 27-68) *)

Definition _gather_embeddings_and_labels
    (dist : Dist.t) (image_embeddings text_embeddings : Tensor2)
    (backprop_in_gather : bool)
  : option (Tensor2 * Tensor2 * LongTensor) :=
  if negb (Dist.is_available dist) || negb (Dist.is_initialized dist) then
    let labels := arange (nrows image_embeddings) in
    Some (image_embeddings, text_embeddings, labels)
  else
    let local_batch_size := nrows image_embeddings in
    let world_size := Dist.get_world_size dist in
    '(img_embeddings_all_gpus, text_embeddings_all_gpus) ←
      (if backprop_in_gather then
         img ← Dist.all_gather_with_backprop dist Dist.Image image_embeddings;
         txt ← Dist.all_gather_with_backprop dist Dist.Text text_embeddings;
         Some (img, txt)
       else
         let text_embeddings_all_gpus :=
           replicate world_size (zeros_like text_embeddings) in
         let img_embeddings_all_gpus :=
           replicate world_size (zeros_like image_embeddings) in
         img ← Dist.all_gather_no_backprop dist Dist.Image
                 img_embeddings_all_gpus image_embeddings;
         txt ← Dist.all_gather_no_backprop dist Dist.Text
                 text_embeddings_all_gpus text_embeddings;
         Some (img, txt));
    let labels :=
      map (λ i, local_batch_size * Dist.get_rank dist + i)
          (arange local_batch_size) in
    img_all ← cat img_embeddings_all_gpus;
    text_all ← cat text_embeddings_all_gpus;
    Some (img_all, text_all, labels).

(** ** [contrastive_loss_with_temperature] (lines 71-134) *)

(** Lines 119-122: the optional mask. *)
Definition apply_mask (mask : option BoolTensor)
    (logits_per_image logits_per_text : Tensor2) (labels : LongTensor)
  : option (Tensor2 * Tensor2 * LongTensor) :=
  match mask with
  | Some mask =>
      logits_per_image ← index_mask logits_per_image mask;
      logits_per_text ← index_mask logits_per_text mask;
      labels ← index_mask1 labels mask;
      Some (logits_per_image, logits_per_text, labels)
  | None => Some (logits_per_image, logits_per_text, labels)
  end.

(** Lines 101-117: the gather and the two logit matrices, for a given
    temperature. *)
Definition logits_and_labels
    (dist : Dist.t) (image_embeddings text_embeddings : Tensor2)
    (temperature : R) (backprop_in_gather : bool)
  : option (Tensor2 * Tensor2 * LongTensor) :=
  '(img_embeddings_all_gpus, text_embeddings_all_gpus, labels) ←
    _gather_embeddings_and_labels
      dist image_embeddings text_embeddings backprop_in_gather;
  logits_per_image ←
    (t ← matmul image_embeddings (transpose text_embeddings_all_gpus);
     Some (mul_scalar t temperature));
  logits_per_text ←
    (t ← matmul text_embeddings (transpose img_embeddings_all_gpus);
     Some (mul_scalar t temperature));
  Some (logits_per_image, logits_per_text, labels).

Definition contrastive_loss_with_temperature
    (dist : Dist.t) (image_embeddings text_embeddings : Tensor2)
    (logit_scale : nn_Parameter) (mask : option BoolTensor)
    (backprop_in_gather : bool) : M ContrastiveLossOutput :=
  (let* logit_scale_data := data logit_scale in
   let temperature := exp logit_scale_data in
   let* (logits_per_image, logits_per_text, labels) :=
     lift (logits_and_labels dist image_embeddings text_embeddings
             temperature backprop_in_gather) in
   let* (logits_per_image, logits_per_text, labels) :=
     lift (apply_mask mask logits_per_image logits_per_text labels) in
   let* loss_i := lift (cross_entropy logits_per_image labels) in
   let* loss_t := lift (cross_entropy logits_per_text labels) in
   let loss := ((loss_i + loss_t) / 2)%R in
   ret (ContrastiveLossOutput_init
          loss logits_per_image logits_per_text loss_i loss_t))%M.

(** ** [DEFAULT_LOGIT_SCALE] (line 137)

    One parameter object, created when the file is imported. *)
Definition DEFAULT_LOGIT_SCALE : nn_Parameter := 0.

Definition import_store : Store :=
  {[ DEFAULT_LOGIT_SCALE := (ln (1 / (7 / 100)) * 1)%R ]}.

(** ** [ContrastiveLossWithTemperature] (lines 140-193) *)

Module ContrastiveLossWithTemperature.

Record t : Type := mk { logit_scale : nn_Parameter }.

(** [Union[float, nn.Parameter]] *)
Inductive logit_scale_arg : Type :=
  | Float (x : R)
  | Param (p : nn_Parameter).

(** The literal of line 187. *)
Definition LOGIT_SCALE_MAX : R := (46052 / 10000)%R.

Definition __init__ (logit_scale : logit_scale_arg) : M t :=
  match logit_scale with
  | Param p => ret {| logit_scale := p |}
  | Float x =>
      (let* p := new_parameter (x * 1)%R in
       ret {| logit_scale := p |})%M
  end.

Definition forward (self : t) (dist : Dist.t)
    (image_embeddings text_embeddings : Tensor2)
    (backprop_in_gather : bool) : M R :=
  (let* _ := clamp_ (logit_scale self) 0 LOGIT_SCALE_MAX in
   let* out := contrastive_loss_with_temperature
                 dist image_embeddings text_embeddings
                 (logit_scale self) None backprop_in_gather in
   ret (loss out))%M.

End ContrastiveLossWithTemperature.

Import ContrastiveLossWithTemperature.

(** * Definitions used in the statements *)

(** ** The logit matrices, as specified *)

(** The logit of local sample [i] against global sample [j], as the
    specification words it: the inner product of the two embeddings,
    multiplied by the temperature. *)
Definition spec_logit (local global : Tensor2) (temperature : R) (i j : nat)
  : R :=
  (Rsum (map (λ k, entry local i k * entry global j k) (seq 0 (ncols local)))
   * temperature)%R.

(** A matrix of shape (local batch, global batch) holding those logits. *)
Definition scaled_similarity (local global : Tensor2) (temperature : R)
    (m : Tensor2) : Prop :=
  nrows m = nrows local ∧ ncols m = nrows global ∧ wf m
  ∧ ∀ i j, i < nrows local → j < nrows global →
           entry m i j = spec_logit local global temperature i j.

(** ** Positions selected by a mask *)

(** The positions at which a mask holds, in increasing order, counted
    from [s]. *)
Fixpoint true_positions_from (s : nat) (mask : BoolTensor) : list nat :=
  match mask with
  | [] => []
  | b :: mask' =>
      if b then s :: true_positions_from (S s) mask'
      else true_positions_from (S s) mask'
  end.

Definition true_positions (mask : BoolTensor) : list nat :=
  true_positions_from 0 mask.

(** The number of [True] entries of a mask. *)
Definition count_true (mask : BoolTensor) : nat :=
  length (filter (λ b, b = true) mask).

(** ** Exchanging the modalities *)

(** The same group with the roles of the two modalities exchanged on
    every rank. *)
Definition swap_dist (d : Dist.t) : Dist.t :=
  {| Dist.is_available := Dist.is_available d;
     Dist.is_initialized := Dist.is_initialized d;
     Dist.get_rank := Dist.get_rank d;
     Dist.workers := prod_swap <$> Dist.workers d |}.

(** ** Concrete inputs used in the examples *)

Definition single_worker : Dist.t :=
  {| Dist.is_available := true; Dist.is_initialized := false;
     Dist.get_rank := 0; Dist.workers := [] |}.

Definition eye2 : Tensor2 :=
  {| ncols := 2; rows := [[1%R; 0%R]; [0%R; 1%R]] |}.

Definition ab2 : Tensor2 :=
  {| ncols := 2; rows := [[1%R; 2%R]; [3%R; 4%R]] |}.

Definition abc3 : Tensor2 :=
  {| ncols := 2; rows := [[1%R; 2%R]; [3%R; 4%R]; [5%R; 6%R]] |}.

Definition eye3 : Tensor2 :=
  {| ncols := 2; rows := [[1%R; 0%R]; [0%R; 1%R]; [1%R; 1%R]] |}.

(** A group of two workers; the call under study runs at rank 1. *)
Definition two_workers : Dist.t :=
  {| Dist.is_available := true; Dist.is_initialized := true;
     Dist.get_rank := 1; Dist.workers := [(eye2, ab2); (eye2, eye2)] |}.

(** An initialised group with a single rank. *)
Definition one_worker_group : Dist.t :=
  {| Dist.is_available := true; Dist.is_initialized := true;
     Dist.get_rank := 0; Dist.workers := [(ab2, eye2)] |}.

(** Two one-sample batches of dimension one, and a group of two ranks
    that both hold them; the call under study runs at rank 0. *)
Definition zero1 : Tensor2 := {| ncols := 1; rows := [[0%R]] |}.

Definition one1 : Tensor2 := {| ncols := 1; rows := [[1%R]] |}.

Definition twin_workers : Dist.t :=
  {| Dist.is_available := true; Dist.is_initialized := true;
     Dist.get_rank := 0; Dist.workers := [(zero1, one1); (zero1, one1)] |}.

(** Unfolding the operations of [M]. *)
Ltac unfold_M :=
  unfold bind, lift, data, ret, clamp_, new_parameter in *.

(** * Properties *)

(** ** The body of the functional entry point, step by step *)

Lemma contrastive_loss_inv dist image text p mask bp σ out σ' :
  contrastive_loss_with_temperature dist image text p mask bp σ = (Some out, σ') →
  σ' = σ ∧
  ∃ ls li lt labels li' lt' labels' loss_i loss_t,
    σ !! p = Some ls
    ∧ logits_and_labels dist image text (exp ls) bp = Some (li, lt, labels)
    ∧ apply_mask mask li lt labels = Some (li', lt', labels')
    ∧ cross_entropy li' labels' = Some loss_i
    ∧ cross_entropy lt' labels' = Some loss_t
    ∧ out = ContrastiveLossOutput_init
              ((loss_i + loss_t) / 2) li' lt' loss_i loss_t.
Proof.
  unfold contrastive_loss_with_temperature. unfold_M.
  destruct (σ !! p) as [ls|] eqn:Hp; [| discriminate].
  destruct (logits_and_labels dist image text (exp ls) bp)
    as [[[li lt] labels]|] eqn:Hl; [| discriminate].
  destruct (apply_mask mask li lt labels) as [[[li' lt'] labels']|] eqn:Hm;
    [| discriminate].
  destruct (cross_entropy li' labels') as [loss_i|] eqn:Hi; [| discriminate].
  destruct (cross_entropy lt' labels') as [loss_t|] eqn:Ht; [| discriminate].
  intros [= <- <-]. split; [done |].
  by exists ls, li, lt, labels, li', lt', labels', loss_i, loss_t.
Qed.

Lemma contrastive_loss_intro dist image text p mask bp σ
    ls li lt labels li' lt' labels' loss_i loss_t :
  σ !! p = Some ls →
  logits_and_labels dist image text (exp ls) bp = Some (li, lt, labels) →
  apply_mask mask li lt labels = Some (li', lt', labels') →
  cross_entropy li' labels' = Some loss_i →
  cross_entropy lt' labels' = Some loss_t →
  contrastive_loss_with_temperature dist image text p mask bp σ
  = (Some (ContrastiveLossOutput_init
             ((loss_i + loss_t) / 2) li' lt' loss_i loss_t), σ).
Proof.
  intros Hp Hl Hm Hi Ht.
  unfold contrastive_loss_with_temperature. unfold_M.
  by rewrite Hp, Hl, Hm, Hi, Ht.
Qed.

(** The store is never written, whether the call returns or raises. *)
Lemma contrastive_loss_store dist image text p mask bp σ :
  (contrastive_loss_with_temperature dist image text p mask bp σ).2 = σ.
Proof.
  unfold contrastive_loss_with_temperature. unfold_M.
  repeat (match goal with
          | |- context [match ?x with _ => _ end] => destruct x; simpl
          end); done.
Qed.

(** A run on concrete inputs: one worker, two samples. *)
Lemma example_run (v : R) :
  ∃ out, contrastive_loss_with_temperature
           single_worker ab2 eye2 7 None true {[7 := v]} = (Some out, {[7 := v]})
         ∧ image_logits out = mul_scalar ab2 (exp v).
Proof.
  eexists. split.
  - eapply contrastive_loss_intro; try reflexivity.
  - simpl. unfold mul_scalar, ab2. simpl. f_equal.
    repeat (f_equal; try (unfold dot, Rsum; simpl; f_equal; lra)).
Qed.

(** ** The clamp bound and [ln 100]

    The module clamps to the literal [4.6052]; the docstring and the
    specification speak of [ln 100].  The literal is the larger one. *)

Section ClampBound.

Local Open Scope R_scope.

(** Partial sums of the exponential series stay below [exp] on the
    non-negative reals. *)
Lemma E1_le_exp (x : R) (N : nat) : 0 <= x → E1 x N <= exp x.
Proof.
  intros Hx. apply growing_ineq; [| apply E1_cvg].
  intros n. unfold E1. rewrite tech5.
  assert (0 <= / INR (fact (S n)) * x ^ S n); [| lra].
  apply Rmult_le_pos.
  - left. apply Rinv_0_lt_compat, lt_0_INR, lt_O_fact.
  - apply pow_le, Hx.
Qed.

Lemma exp_double (x : R) : exp (2 * x) = exp x * exp x.
Proof. replace (2 * x) with (x + x) by lra. apply exp_plus. Qed.

Lemma square_lower (a b c : R) : 0 <= c → c <= a → b <= c * c → b <= a * a.
Proof. intros. nra. Qed.

(** [exp 4.6052 > 100], through [exp (4.6052 / 32)] and five squarings
    with rational lower bounds. *)
Lemma exp_LOGIT_SCALE_MAX : 100 < exp LOGIT_SCALE_MAX.
Proof.
  unfold LOGIT_SCALE_MAX.
  set (y := 46052 / 320000).
  assert (H0 : 1154783047989 / 1000000000000 <= exp y).
  { eapply Rle_trans; [| apply (E1_le_exp y 5); unfold y; lra].
    unfold E1, y. simpl. lra. }
  assert (H1 : 666761943961 / 500000000000 <= exp (2 * y)).
  { rewrite exp_double. eapply square_lower; [| exact H0 |]; lra. }
  assert (H2 : 889142979829 / 500000000000 <= exp (2 * (2 * y))).
  { rewrite exp_double. eapply square_lower; [| exact H1 |]; lra. }
  assert (H3 : 790575238579 / 250000000000 <= exp (2 * (2 * (2 * y)))).
  { rewrite exp_double. eapply square_lower; [| exact H2 |]; lra. }
  assert (H4 : 10000147325667 / 1000000000000
               <= exp (2 * (2 * (2 * (2 * y))))).
  { rewrite exp_double. eapply square_lower; [| exact H3 |]; lra. }
  assert (H5 : 25000736633761 / 250000000000
               <= exp (2 * (2 * (2 * (2 * (2 * y)))))).
  { rewrite exp_double. eapply square_lower; [| exact H4 |]; lra. }
  replace (46052 / 10000) with (2 * (2 * (2 * (2 * (2 * y)))))
    by (unfold y; lra).
  lra.
Qed.

Lemma ln100_lt_LOGIT_SCALE_MAX : ln 100 < LOGIT_SCALE_MAX.
Proof.
  apply exp_lt_inv. rewrite exp_ln by lra. apply exp_LOGIT_SCALE_MAX.
Qed.

Lemma clamp_range (x lo hi : R) : lo <= hi → lo <= clamp x lo hi <= hi.
Proof.
  intros H. unfold clamp, Rmin, Rmax.
  repeat (destruct (Rle_dec _ _)); lra.
Qed.

Lemma clamp_above (x lo hi : R) : lo <= hi → hi <= x → clamp x lo hi = hi.
Proof.
  intros H1 H2. unfold clamp, Rmin, Rmax.
  repeat (destruct (Rle_dec _ _)); lra.
Qed.

Lemma clamp_below (x lo hi : R) : lo <= hi → x <= lo → clamp x lo hi = lo.
Proof.
  intros H1 H2. unfold clamp, Rmin, Rmax.
  repeat (destruct (Rle_dec _ _)); lra.
Qed.

Lemma clamp_inside (x lo hi : R) : lo <= x <= hi → clamp x lo hi = x.
Proof.
  intros H. unfold clamp, Rmin, Rmax.
  repeat (destruct (Rle_dec _ _)); lra.
Qed.

End ClampBound.

(** ** The module wrapper *)

(** [forward] writes the clamped value before anything can raise. *)
Lemma forward_store self dist image text bp σ v :
  σ !! logit_scale self = Some v →
  (forward self dist image text bp σ).2
  = <[logit_scale self := clamp v 0 LOGIT_SCALE_MAX]> σ.
Proof.
  intros Hv. unfold forward. unfold_M. rewrite Hv.
  pose proof (contrastive_loss_store dist image text (logit_scale self) None bp
                (<[logit_scale self := clamp v 0 LOGIT_SCALE_MAX]> σ)) as Hs.
  destruct (contrastive_loss_with_temperature _ _ _ _ _ _ _) as [[out|] σ'];
    simpl in *; done.
Qed.

(** C1 (as amended): after one call to [forward] the stored
    [logit_scale] is the clamp of the previous value and lies within
    [[0, 4.6052]], whatever the previous value was and whether or not
    the loss computation that follows raises. *)
Theorem C1_forward_clamps_logit_scale self dist image text bp σ v :
  σ !! logit_scale self = Some v →
  ∃ v', (forward self dist image text bp σ).2 !! logit_scale self = Some v'
        ∧ v' = clamp v 0 LOGIT_SCALE_MAX
        ∧ (0 <= v' <= LOGIT_SCALE_MAX)%R.
Proof.
  intros Hv. exists (clamp v 0 LOGIT_SCALE_MAX).
  rewrite (forward_store _ _ _ _ _ _ v Hv), lookup_insert_eq.
  split; [done |]. split; [done |].
  apply clamp_range. unfold LOGIT_SCALE_MAX. lra.
Qed.

Lemma C1_forward_clamps_logit_scale_witness :
  ∃ v', (forward {| logit_scale := 7 |} single_worker eye2 eye2 true
           {[7 := (-5)%R]}).2 !! 7 = Some v'
        ∧ v' = clamp (-5) 0 LOGIT_SCALE_MAX
        ∧ (0 <= v' <= LOGIT_SCALE_MAX)%R.
Proof.
  apply (C1_forward_clamps_logit_scale {| logit_scale := 7 |} single_worker
           eye2 eye2 true {[7 := (-5)%R]} (-5)%R).
  reflexivity.
Defined.

(** A value below the range is raised to 0; a value inside it is kept. *)
Example forward_from_below_and_inside :
  (forward {| logit_scale := 7 |} single_worker eye2 eye2 true
     {[7 := (-5)%R]}).2 !! 7 = Some 0%R
  ∧ (forward {| logit_scale := 7 |} single_worker eye2 eye2 true
       {[7 := 2%R]}).2 !! 7 = Some 2%R.
Proof.
  split.
  - erewrite forward_store; [| reflexivity]. rewrite lookup_insert_eq.
    f_equal. unfold LOGIT_SCALE_MAX. apply clamp_below; lra.
  - erewrite forward_store; [| reflexivity]. rewrite lookup_insert_eq.
    f_equal. unfold LOGIT_SCALE_MAX. apply clamp_inside; lra.
Qed.

(** C1 (as stated) fails: a module constructed with [logit_scale =
    10.0] stores [4.6052] after one [forward], which is above
    [ln 100]. *)
Lemma C1_counterexample :
  ∃ self σ0,
    __init__ (Float 10) import_store = (Some self, σ0)
    ∧ (forward self single_worker eye2 eye2 true σ0).2 !! logit_scale self
      = Some LOGIT_SCALE_MAX
    ∧ ¬ (0 <= LOGIT_SCALE_MAX <= ln 100)%R.
Proof.
  eexists _, _. split; [reflexivity |]. split.
  - erewrite forward_store; [| reflexivity]. rewrite lookup_insert_eq.
    f_equal. unfold LOGIT_SCALE_MAX. apply clamp_above; lra.
  - pose proof ln100_lt_LOGIT_SCALE_MAX. lra.
Qed.

(** ** Averaging *)

(** C2: the two per-direction losses returned are the cross-entropies
    of the returned image and text logits against the labels (as they
    stand after the optional mask), and the [loss] field is exactly
    their average [(loss_i + loss_t) / 2]. *)
Theorem C2_loss_is_average dist image text p mask bp σ out σ' :
  contrastive_loss_with_temperature dist image text p mask bp σ
    = (Some out, σ') →
  ∃ ls logits_per_image logits_per_text labels labels' loss_i loss_t,
    σ !! p = Some ls
    ∧ logits_and_labels dist image text (exp ls) bp
      = Some (logits_per_image, logits_per_text, labels)
    ∧ apply_mask mask logits_per_image logits_per_text labels
      = Some (image_logits out, text_logits out, labels')
    ∧ cross_entropy (image_logits out) labels' = Some loss_i
    ∧ cross_entropy (text_logits out) labels' = Some loss_t
    ∧ image_loss out = loss_i
    ∧ text_loss out = loss_t
    ∧ loss out = ((loss_i + loss_t) / 2)%R
    ∧ loss out = ((image_loss out + text_loss out) / 2)%R.
Proof.
  intros H. apply contrastive_loss_inv in H as (_ & H).
  destruct H as (ls & li & lt & lb & li' & lt' & lb' & a & b & H).
  destruct H as (Hp & Hl & Hm & Hi & Ht & ->). simpl.
  exists ls, li, lt, lb, lb', a, b.
  repeat split; done.
Qed.

Lemma C2_loss_is_average_witness :
  ∃ out,
    contrastive_loss_with_temperature
      single_worker ab2 eye2 7 (Some [true; false]) true {[7 := 1%R]}
    = (Some out, {[7 := 1%R]})
    ∧ ∃ ls logits_per_image logits_per_text labels labels' loss_i loss_t,
        ({[7 := 1%R]} : Store) !! 7 = Some ls
        ∧ logits_and_labels single_worker ab2 eye2 (exp ls) true
          = Some (logits_per_image, logits_per_text, labels)
        ∧ apply_mask (Some [true; false]) logits_per_image logits_per_text
            labels
          = Some (image_logits out, text_logits out, labels')
        ∧ cross_entropy (image_logits out) labels' = Some loss_i
        ∧ cross_entropy (text_logits out) labels' = Some loss_t
        ∧ image_loss out = loss_i
        ∧ text_loss out = loss_t
        ∧ loss out = ((loss_i + loss_t) / 2)%R
        ∧ loss out = ((image_loss out + text_loss out) / 2)%R.
Proof.
  eexists. split.
  - eapply contrastive_loss_intro; reflexivity.
  - eapply (C2_loss_is_average single_worker ab2 eye2 7 (Some [true; false])
              true {[7 := 1%R]}).
    eapply contrastive_loss_intro; reflexivity.
Defined.

(** ** Gathering *)

Section Gather.

Implicit Types (d : Dist.t) (c : Dist.Round) (x image text : Tensor2).

Lemma contributions_length d c x :
  length (Dist.contributions d c x) = Dist.get_world_size d.
Proof.
  unfold Dist.contributions, Dist.get_world_size.
  by rewrite length_insert, length_fmap.
Qed.

(** The local rank contributes the argument of the call. *)
Lemma contributions_local d c x :
  Dist.get_rank d < Dist.get_world_size d →
  Dist.contributions d c x !! Dist.get_rank d = Some x.
Proof.
  intros Hr. unfold Dist.contributions. apply list_lookup_insert_eq.
  by rewrite length_fmap.
Qed.

(** Every other rank contributes its own batch. *)
Lemma contributions_remote d c x k :
  k ≠ Dist.get_rank d →
  Dist.contributions d c x !! k = Dist.batch_of c <$> Dist.workers d !! k.
Proof.
  intros Hk. unfold Dist.contributions.
  rewrite list_lookup_insert_ne by done. apply list_lookup_fmap.
Qed.

Lemma fill_buffers {A B : Type} (buffers : list A) (received : list B) :
  length buffers = length received →
  zip_with (λ _ r, r) buffers received = received.
Proof.
  revert received. induction buffers as [|b bs IH]; intros [|r rs] Hlen;
    simpl in *; try done.
  f_equal. apply IH. lia.
Qed.

(** Filling one zero buffer per rank yields the tuple that the
    gradient-propagating collective returns. *)
Lemma all_gather_variants d c x z :
  Dist.all_gather_no_backprop d c (replicate (Dist.get_world_size d) z) x
  = Dist.all_gather_with_backprop d c x.
Proof.
  unfold Dist.all_gather_no_backprop, Dist.all_gather_with_backprop.
  destruct (decide (Dist.uniform x (Dist.contributions d c x))) as [Hu|Hu].
  - rewrite decide_True by (split; [apply length_replicate | done]).
    f_equal. apply fill_buffers.
    by rewrite length_replicate, contributions_length.
  - rewrite decide_False; [done |]. by intros [_ ?].
Qed.

Lemma gather_backprop_irrelevant d image text :
  _gather_embeddings_and_labels d image text false
  = _gather_embeddings_and_labels d image text true.
Proof.
  unfold _gather_embeddings_and_labels.
  destruct (negb _ || negb _); [done |].
  by rewrite !all_gather_variants.
Qed.

Lemma lookup_map {A B : Type} (f : A → B) (l : list A) (i : nat) :
  map f l !! i = f <$> l !! i.
Proof.
  revert i. induction l as [|a l IH]; intros [|i]; simpl; done.
Qed.

Lemma arange_length n : length (arange n) = n.
Proof. apply length_seq. Qed.

Lemma arange_lookup n i : i < n → arange n !! i = Some i.
Proof. intros Hi. unfold arange. by rewrite lookup_seq_lt. Qed.

(** Row [k * B + i] of a concatenation of pieces of [B] rows each is
    row [i] of piece [k]. *)
Lemma concat_lookup_uniform {A : Type} (ls : list (list A)) (B k i : nat) l :
  Forall (λ l, length l = B) ls →
  ls !! k = Some l → i < B →
  concat ls !! (k * B + i) = l !! i.
Proof.
  intros Hall. revert k. induction Hall as [|l0 ls Hl0 Hall IH];
    intros k Hk Hi; [done |].
  destruct k as [|k]; simpl in *.
  - injection Hk as ->. rewrite lookup_app_l by lia. done.
  - rewrite lookup_app_r by lia.
    replace (B + k * B + i - length l0) with (k * B + i) by lia.
    by apply IH.
Qed.

Lemma concat_length_uniform {A : Type} (ls : list (list A)) (B : nat) :
  Forall (λ l, length l = B) ls → length (concat ls) = length ls * B.
Proof.
  induction 1 as [|l ls Hl Hall IH]; simpl; [done |].
  rewrite length_app. lia.
Qed.

Lemma cat_uniform (ts : list Tensor2) (D : nat) :
  ts ≠ [] → Forall (λ t, ncols t = D) ts →
  cat ts = Some {| ncols := D; rows := concat (rows <$> ts) |}.
Proof.
  intros Hne Hall. destruct ts as [|t ts]; [done |]. unfold cat.
  pose proof (Forall_inv Hall) as Ht. simpl in Ht.
  rewrite decide_True.
  - by rewrite Ht.
  - eapply Forall_impl; [exact Hall |]. simpl. intros t' ->. done.
Qed.

Lemma cat_rows (ts : list Tensor2) (t : Tensor2) :
  cat ts = Some t → rows t = concat (rows <$> ts).
Proof.
  unfold cat. destruct ts as [|t0 ts]; [done |].
  case_decide; [| done]. by intros [= <-].
Qed.

End Gather.

Lemma gather_inactive dist image text bp :
  Dist.is_available dist = false ∨ Dist.is_initialized dist = false →
  _gather_embeddings_and_labels dist image text bp
  = Some (image, text, arange (nrows image)).
Proof.
  intros Hoff. unfold _gather_embeddings_and_labels.
  destruct Hoff as [-> | ->]; simpl; [done |].
  by rewrite orb_true_r.
Qed.

(** C3: with no distributed environment active, the gather returns
    the two batches as they are and the labels [0, 1, ..., N-1] for a
    local batch of [N] image rows. *)
Theorem C3_single_worker_gather dist image text bp :
  Dist.is_available dist = false ∨ Dist.is_initialized dist = false →
  ∃ labels,
    _gather_embeddings_and_labels dist image text bp
    = Some (image, text, labels)
    ∧ length labels = nrows image
    ∧ ∀ i, i < nrows image → labels !! i = Some i.
Proof.
  intros Hoff. exists (arange (nrows image)). split; [| split].
  - by apply gather_inactive.
  - apply arange_length.
  - apply arange_lookup.
Qed.

Lemma C3_single_worker_gather_witness :
  ∃ labels,
    _gather_embeddings_and_labels single_worker ab2 eye2 true
    = Some (ab2, eye2, labels)
    ∧ length labels = nrows ab2
    ∧ ∀ i, i < nrows ab2 → labels !! i = Some i.
Proof.
  apply (C3_single_worker_gather single_worker ab2 eye2 true).
  right. reflexivity.
Defined.

(** C8: the forward results do not depend on [backprop_in_gather]:
    the gathered batches, the labels, the logits and the losses are
    the same for both settings, in every distributed configuration.
    (Gradients are not part of the model.) *)
Theorem C8_backprop_in_gather_same_forward dist image text p mask σ :
  _gather_embeddings_and_labels dist image text false
  = _gather_embeddings_and_labels dist image text true
  ∧ contrastive_loss_with_temperature dist image text p mask false σ
    = contrastive_loss_with_temperature dist image text p mask true σ.
Proof.
  split; [apply gather_backprop_irrelevant |].
  unfold contrastive_loss_with_temperature, logits_and_labels.
  by rewrite gather_backprop_irrelevant.
Qed.

Example two_workers_gather :
  _gather_embeddings_and_labels two_workers ab2 eye2 false
  = Some ({| ncols := 2;
             rows := [[1%R; 0%R]; [0%R; 1%R]; [1%R; 2%R]; [3%R; 4%R]] |},
          {| ncols := 2;
             rows := [[1%R; 2%R]; [3%R; 4%R]; [1%R; 0%R]; [0%R; 1%R]] |},
          [2; 3]).
Proof. reflexivity. Qed.

Section DistributedGather.

Variables (dist : Dist.t) (image text : Tensor2) (B : nat).

Hypothesis Havailable : Dist.is_available dist = true.
Hypothesis Hinitialized : Dist.is_initialized dist = true.
Hypothesis Hrank : Dist.get_rank dist < Dist.get_world_size dist.
Hypothesis Himage : nrows image = B.
Hypothesis Htext : nrows text = B.
Hypothesis Hworkers :
  Forall (λ w, Dist.same_shape image w.1 ∧ Dist.same_shape text w.2)
         (Dist.workers dist).

Lemma contributions_uniform c x :
  Forall (λ w, Dist.same_shape x (Dist.batch_of c w)) (Dist.workers dist) →
  Dist.uniform x (Dist.contributions dist c x).
Proof.
  intros Hw. unfold Dist.uniform, Dist.contributions.
  apply Forall_insert; [| done]. by apply Forall_fmap.
Qed.

Lemma image_uniform :
  Dist.uniform image (Dist.contributions dist Dist.Image image).
Proof.
  apply contributions_uniform.
  eapply Forall_impl; [exact Hworkers |]. by intros w [? _].
Qed.

Lemma text_uniform :
  Dist.uniform text (Dist.contributions dist Dist.Text text).
Proof.
  apply contributions_uniform.
  eapply Forall_impl; [exact Hworkers |]. by intros w [_ ?].
Qed.

Lemma uniform_cat x ts :
  ts ≠ [] → Dist.uniform x ts →
  cat ts = Some {| ncols := ncols x; rows := concat (rows <$> ts) |}.
Proof.
  intros Hne Hu. apply cat_uniform; [done |].
  eapply Forall_impl; [exact Hu |]. by intros t [_ <-].
Qed.

Lemma uniform_rows x ts :
  Dist.uniform x ts → Forall (λ l, length l = nrows x) (rows <$> ts).
Proof.
  intros Hu. apply Forall_fmap.
  eapply Forall_impl; [exact Hu |]. by intros t [-> _].
Qed.

Lemma contributions_nonempty c x : Dist.contributions dist c x ≠ [].
Proof.
  intros Hnil. pose proof (contributions_length dist c x) as Hlen.
  rewrite Hnil in Hlen. simpl in Hlen. lia.
Qed.

Lemma distributed_gather bp :
  _gather_embeddings_and_labels dist image text bp
  = Some ({| ncols := ncols image;
             rows := concat (rows <$> Dist.contributions dist Dist.Image image) |},
          {| ncols := ncols text;
             rows := concat (rows <$> Dist.contributions dist Dist.Text text) |},
          map (λ i, B * Dist.get_rank dist + i) (arange B)).
Proof.
  destruct bp; [| rewrite gather_backprop_irrelevant];
    unfold _gather_embeddings_and_labels;
    rewrite Havailable, Hinitialized; simpl;
    unfold Dist.all_gather_with_backprop;
    rewrite (decide_True _ _ image_uniform), (decide_True _ _ text_uniform);
    simpl;
    rewrite (uniform_cat image _ (contributions_nonempty _ _) image_uniform),
            (uniform_cat text _ (contributions_nonempty _ _) text_uniform);
    simpl; by rewrite Himage.
Qed.

End DistributedGather.

(** C4: in a group of [W] workers whose batches all have [B] rows, the
    gather at rank [r] returns global image and text batches of
    [W * B] rows in which row [k * B + i] is row [i] of the batch of
    rank [k] (the local batch for [k = r]), and the labels
    [r * B, r * B + 1, ..., r * B + B - 1]. *)
Theorem C4_distributed_gather dist image text bp (B : nat) :
  Dist.is_available dist = true →
  Dist.is_initialized dist = true →
  Dist.get_rank dist < Dist.get_world_size dist →
  nrows image = B →
  nrows text = B →
  Forall (λ w, Dist.same_shape image w.1 ∧ Dist.same_shape text w.2)
         (Dist.workers dist) →
  ∃ img_all text_all labels,
    _gather_embeddings_and_labels dist image text bp
    = Some (img_all, text_all, labels)
    ∧ nrows img_all = Dist.get_world_size dist * B
    ∧ nrows text_all = Dist.get_world_size dist * B
    ∧ rows img_all = concat (rows <$> Dist.contributions dist Dist.Image image)
    ∧ rows text_all = concat (rows <$> Dist.contributions dist Dist.Text text)
    ∧ (∀ k t i, Dist.contributions dist Dist.Image image !! k = Some t →
                i < B → rows img_all !! (k * B + i) = rows t !! i)
    ∧ (∀ k t i, Dist.contributions dist Dist.Text text !! k = Some t →
                i < B → rows text_all !! (k * B + i) = rows t !! i)
    ∧ length labels = B
    ∧ ∀ i, i < B → labels !! i = Some (Dist.get_rank dist * B + i).
Proof.
  intros Ha Hi Hr Himg Htxt Hw.
  pose proof (image_uniform dist image text Hw) as Hui.
  pose proof (text_uniform dist image text Hw) as Hut.
  apply uniform_rows in Hui, Hut. rewrite Himg in Hui. rewrite Htxt in Hut.
  eexists _, _, _. split; [by apply distributed_gather |].
  unfold nrows at 1 2. simpl.
  rewrite !(concat_length_uniform _ B), !length_fmap, !contributions_length
    by done.
  repeat split; try done.
  - intros k t i Hk HiB. apply concat_lookup_uniform; [done | | done].
    by rewrite list_lookup_fmap, Hk.
  - intros k t i Hk HiB. apply concat_lookup_uniform; [done | | done].
    by rewrite list_lookup_fmap, Hk.
  - apply arange_length.
  - intros i HiB.
    rewrite lookup_map, arange_lookup by done.
    simpl. f_equal. lia.
Qed.

Lemma C4_distributed_gather_witness :
  ∃ img_all text_all labels,
    _gather_embeddings_and_labels two_workers ab2 eye2 true
    = Some (img_all, text_all, labels)
    ∧ nrows img_all = Dist.get_world_size two_workers * 2
    ∧ nrows text_all = Dist.get_world_size two_workers * 2
    ∧ rows img_all
      = concat (rows <$> Dist.contributions two_workers Dist.Image ab2)
    ∧ rows text_all
      = concat (rows <$> Dist.contributions two_workers Dist.Text eye2)
    ∧ (∀ k t i, Dist.contributions two_workers Dist.Image ab2 !! k = Some t →
                i < 2 → rows img_all !! (k * 2 + i) = rows t !! i)
    ∧ (∀ k t i, Dist.contributions two_workers Dist.Text eye2 !! k = Some t →
                i < 2 → rows text_all !! (k * 2 + i) = rows t !! i)
    ∧ length labels = 2
    ∧ ∀ i, i < 2 → labels !! i = Some (Dist.get_rank two_workers * 2 + i).
Proof.
  apply (C4_distributed_gather two_workers ab2 eye2 true 2);
    try reflexivity.
  - simpl. unfold Dist.get_world_size. simpl. lia.
  - unfold two_workers. simpl. repeat constructor.
Defined.

(** ** The logit matrices *)

Section Logits.

Local Open Scope R_scope.

Lemma nth_column (t : Tensor2) (j k : nat) :
  nth j (column t k) 0 = entry t j k.
Proof.
  unfold column, entry. generalize (rows t) as rs. intros rs. revert j.
  induction rs as [|r rs IH]; intros [|j]; simpl; try done.
  - by destruct k.
  - by destruct k.
Qed.

Lemma column_transpose (t : Tensor2) (j : nat) :
  column (transpose t) j = map (entry t j) (seq 0 (ncols t)).
Proof.
  unfold column at 1. unfold transpose. simpl. rewrite map_map.
  apply map_ext. intros k. apply nth_column.
Qed.

Lemma dot_cons (a b : R) (u v : list R) :
  dot (a :: u) (b :: v) = a * b + dot u v.
Proof. reflexivity. Qed.

Lemma dot_sum (u : list R) (g : nat → R) (s : nat) :
  dot u (map g (seq s (length u)))
  = Rsum (map (λ k, nth (k - s) u 0 * g k) (seq s (length u))).
Proof.
  revert s. induction u as [|a u IH]; intros s; [done |].
  simpl length. simpl seq. simpl map. rewrite dot_cons, IH.
  unfold Rsum at 2. simpl foldr. fold (Rsum).
  replace (s - s)%nat with 0%nat by lia. simpl nth. f_equal.
  f_equal. apply map_ext_in. intros k Hk. apply in_seq in Hk.
  replace (k - s)%nat with (S (k - S s)) by lia. done.
Qed.

Lemma entry_lookup (t : Tensor2) (i j : nat) (r : list R) (x : R) :
  rows t !! i = Some r → r !! j = Some x → entry t i j = x.
Proof.
  intros Hr Hx. unfold entry. rewrite (nth_lookup_Some _ _ _ _ Hr).
  by rewrite (nth_lookup_Some _ _ _ _ Hx).
Qed.

Lemma entry_row (t : Tensor2) (i k : nat) (r : list R) :
  rows t !! i = Some r → entry t i k = nth k r 0.
Proof. intros Hr. unfold entry. by rewrite (nth_lookup_Some _ _ _ _ Hr). Qed.

(** [matmul a (transpose t)] holds the inner products of the rows of
    [a] with the rows of [t]. *)
Lemma matmul_transpose (a t m : Tensor2) (s : R) :
  wf a →
  matmul a (transpose t) = Some m →
  scaled_similarity a t s (mul_scalar m s).
Proof.
  intros Hwf. unfold matmul. case_decide as Hdim; [| done].
  intros [= <-]. unfold nrows in Hdim. simpl in Hdim.
  rewrite length_map, length_seq in Hdim.
  unfold scaled_similarity, nrows, wf. simpl.
  rewrite !length_map. repeat split.
  - apply Forall_forall. intros r Hr.
    apply list_elem_of_In, in_map_iff in Hr as (r1 & <- & Hr1).
    apply in_map_iff in Hr1 as (r0 & <- & _).
    by rewrite !length_map, length_seq.
  - intros i j Hi Hj.
    destruct (lookup_lt_is_Some_2 (rows a) i Hi) as [r Hr].
    erewrite entry_lookup; [reflexivity | |].
    + simpl. rewrite !lookup_map, Hr. reflexivity.
    + rewrite !lookup_map, lookup_seq_lt by done. simpl.
      rewrite column_transpose.
      assert (Hlen : length r = ncols t).
      { rewrite <- Hdim. eapply Forall_lookup_1 in Hwf; eauto. }
      rewrite <- Hlen, dot_sum. unfold spec_logit.
      rewrite Hdim, <- Hlen. do 3 f_equal.
      apply map_ext. intros k. rewrite Nat.sub_0_r.
      by rewrite (entry_row a i k r Hr).
Qed.

Lemma logits_and_labels_inv dist image text temperature bp li lt labels :
  logits_and_labels dist image text temperature bp = Some (li, lt, labels) →
  ∃ img_all text_all mi mt,
    _gather_embeddings_and_labels dist image text bp
    = Some (img_all, text_all, labels)
    ∧ matmul image (transpose text_all) = Some mi
    ∧ matmul text (transpose img_all) = Some mt
    ∧ li = mul_scalar mi temperature
    ∧ lt = mul_scalar mt temperature.
Proof.
  unfold logits_and_labels.
  destruct (_gather_embeddings_and_labels dist image text bp)
    as [[[img_all text_all] lbl]|]; [| done]. simpl.
  destruct (matmul image (transpose text_all)) as [mi|] eqn:Hmi; [| done].
  simpl.
  destruct (matmul text (transpose img_all)) as [mt|] eqn:Hmt; [| done].
  simpl.
  intros [= <- <- <-]. by exists img_all, text_all, mi, mt.
Qed.

End Logits.

(** C5: the temperature is [exp logit_scale]; before the mask is
    applied, [logits_per_image] has shape (local batch, global batch)
    and holds, at [(i, j)], the inner product of local image embedding
    [i] with gathered text embedding [j] multiplied by the temperature;
    [logits_per_text] is the same construction from the local text and
    the gathered image embeddings. *)
Theorem C5_logits_formation dist image text p mask bp σ out σ' :
  wf image → wf text →
  contrastive_loss_with_temperature dist image text p mask bp σ
    = (Some out, σ') →
  ∃ ls img_all text_all labels logits_per_image logits_per_text labels',
    σ !! p = Some ls
    ∧ _gather_embeddings_and_labels dist image text bp
      = Some (img_all, text_all, labels)
    ∧ scaled_similarity image text_all (exp ls) logits_per_image
    ∧ scaled_similarity text img_all (exp ls) logits_per_text
    ∧ apply_mask mask logits_per_image logits_per_text labels
      = Some (image_logits out, text_logits out, labels').
Proof.
  intros Hwi Hwt H. apply contrastive_loss_inv in H as (_ & H).
  destruct H as (ls & li & lt & lb & li' & lt' & lb' & a & b & H).
  destruct H as (Hp & Hl & Hm & _ & _ & ->).
  apply logits_and_labels_inv in Hl
    as (img_all & text_all & mi & mt & Hg & Hmi & Hmt & -> & ->).
  exists ls, img_all, text_all, lb, (mul_scalar mi (exp ls)),
    (mul_scalar mt (exp ls)), lb'.
  split; [done |]. split; [done |].
  split; [by apply matmul_transpose |].
  split; [by apply matmul_transpose | done].
Qed.

(** ** The mask *)

Section Mask.

Context {A : Type}.
Implicit Types (xs : list A) (mask : BoolTensor).

Lemma elem_of_true_positions_from mask s i :
  i ∈ true_positions_from s mask ↔ ∃ k, i = s + k ∧ mask !! k = Some true.
Proof.
  revert s. induction mask as [|b mask IH]; intros s; simpl.
  - split; [by intros ?%elem_of_nil | by intros (k & _ & ?)].
  - assert (Htail : i ∈ true_positions_from (S s) mask
                    ↔ ∃ k, i = s + S k ∧ mask !! k = Some true).
    { rewrite IH. split; intros (k & -> & Hk); exists k; split; (lia || done). }
    destruct b.
    + rewrite elem_of_cons, Htail. split.
      * intros [-> | (k & -> & Hk)]; [exists 0; split; (lia || done) |].
        by exists (S k).
      * intros ([|k] & -> & Hk); [left; lia | right; by exists k].
    + rewrite Htail. split.
      * intros (k & -> & Hk). by exists (S k).
      * intros ([|k] & -> & Hk); [done | by exists k].
Qed.

Lemma elem_of_true_positions mask i :
  i ∈ true_positions mask ↔ mask !! i = Some true.
Proof.
  unfold true_positions. rewrite elem_of_true_positions_from. split.
  - by intros (k & -> & Hk).
  - intros Hi. by exists i.
Qed.

Lemma true_positions_from_sorted mask s :
  StronglySorted lt (true_positions_from s mask).
Proof.
  revert s. induction mask as [|b mask IH]; intros s; simpl; [constructor |].
  destruct b; [| apply IH]. constructor; [apply IH |].
  apply Forall_forall. intros i Hi.
  apply elem_of_true_positions_from in Hi as (k & -> & _). lia.
Qed.

Lemma true_positions_sorted mask : StronglySorted lt (true_positions mask).
Proof. apply true_positions_from_sorted. Qed.

Lemma select_positions_from xs mask s :
  length mask = length xs →
  Forall2 (λ y i, ∃ k, i = s + k ∧ xs !! k = Some y)
          (select xs mask) (true_positions_from s mask).
Proof.
  revert mask s. induction xs as [|x xs IH]; intros [|b mask] s Hlen;
    simpl in *; try done; try constructor.
  assert (Htail : Forall2 (λ y i, ∃ k, i = s + k ∧ (x :: xs) !! k = Some y)
                    (select xs mask) (true_positions_from (S s) mask)).
  { eapply Forall2_impl; [apply (IH mask (S s)); lia |].
    intros y i (k & -> & Hk). exists (S k). split; [lia | done]. }
  destruct b; [| done]. constructor; [| done].
  exists 0. split; [lia | done].
Qed.

(** [select] keeps the elements at the positions where the mask
    holds, in increasing order of position. *)
Lemma select_positions xs mask :
  length mask = length xs →
  Forall2 (λ y i, xs !! i = Some y) (select xs mask) (true_positions mask).
Proof.
  intros Hlen. eapply Forall2_impl; [by apply (select_positions_from _ _ 0) |].
  by intros y i (k & -> & Hk).
Qed.

Lemma select_length xs mask :
  length mask = length xs → length (select xs mask) = count_true mask.
Proof.
  unfold count_true. revert mask.
  induction xs as [|x xs IH]; intros [|b mask] Hlen; simpl in *; try done.
  destruct b.
  - rewrite filter_cons_True by done. simpl. f_equal. apply IH. lia.
  - rewrite filter_cons_False by done. apply IH. lia.
Qed.

Lemma index_mask1_inv xs mask ys :
  index_mask1 xs mask = Some ys →
  length mask = length xs ∧ ys = select xs mask.
Proof. unfold index_mask1. case_decide; [| done]. by intros [= <-]. Qed.

End Mask.

Lemma index_mask_inv (t t' : Tensor2) (mask : BoolTensor) :
  index_mask t mask = Some t' →
  length mask = nrows t ∧ ncols t' = ncols t ∧ rows t' = select (rows t) mask.
Proof.
  unfold index_mask.
  destruct (index_mask1 (rows t) mask) as [rs|] eqn:Hrs; [| done].
  apply index_mask1_inv in Hrs as [Hlen ->]. by intros [= <-].
Qed.

Lemma apply_mask_Some_inv mask li lt labels li' lt' labels' :
  apply_mask (Some mask) li lt labels = Some (li', lt', labels') →
  length mask = nrows li ∧ length mask = nrows lt
  ∧ length mask = length labels
  ∧ ncols li' = ncols li ∧ ncols lt' = ncols lt
  ∧ rows li' = select (rows li) mask
  ∧ rows lt' = select (rows lt) mask
  ∧ labels' = select labels mask.
Proof.
  unfold apply_mask.
  destruct (index_mask li mask) as [a|] eqn:Ha; [| done].
  destruct (index_mask lt mask) as [b|] eqn:Hb; [| done].
  destruct (index_mask1 labels mask) as [c|] eqn:Hc; [| done].
  apply index_mask_inv in Ha as (? & ? & ?), Hb as (? & ? & ?).
  apply index_mask1_inv in Hc as (? & ?).
  intros [= <- <- <-]. done.
Qed.

Lemma logits_and_labels_nrows dist image text temperature bp li lt labels :
  logits_and_labels dist image text temperature bp = Some (li, lt, labels) →
  nrows li = nrows image ∧ nrows lt = nrows text.
Proof.
  intros H. apply logits_and_labels_inv in H
    as (img_all & text_all & mi & mt & _ & Hmi & Hmt & -> & ->).
  unfold matmul in Hmi, Hmt. repeat case_decide; try done.
  injection Hmi as <-. injection Hmt as <-.
  unfold nrows, mul_scalar. simpl. by rewrite !length_map.
Qed.

(** C6: a mask filters the rows of both logit matrices and the
    entries of the labels before the cross-entropy is taken.  The rows
    and labels kept are those at the positions where the mask holds,
    in increasing order of position, and their number is the number of
    [True] entries.  A call that returns was given a mask as long as
    the local batch. *)
Theorem C6_mask_filters_rows dist image text p mask bp σ out σ' :
  contrastive_loss_with_temperature dist image text p (Some mask) bp σ
    = (Some out, σ') →
  ∃ ls logits_per_image logits_per_text labels labels' positions,
    σ !! p = Some ls
    ∧ logits_and_labels dist image text (exp ls) bp
      = Some (logits_per_image, logits_per_text, labels)
    ∧ length mask = nrows image
    ∧ StronglySorted lt positions
    ∧ (∀ i, i ∈ positions ↔ mask !! i = Some true)
    ∧ Forall2 (λ r i, rows logits_per_image !! i = Some r)
              (rows (image_logits out)) positions
    ∧ Forall2 (λ r i, rows logits_per_text !! i = Some r)
              (rows (text_logits out)) positions
    ∧ Forall2 (λ y i, labels !! i = Some y) labels' positions
    ∧ nrows (image_logits out) = count_true mask
    ∧ nrows (text_logits out) = count_true mask
    ∧ length labels' = count_true mask
    ∧ cross_entropy (image_logits out) labels' = Some (image_loss out)
    ∧ cross_entropy (text_logits out) labels' = Some (text_loss out).
Proof.
  intros H. apply contrastive_loss_inv in H as (_ & H).
  destruct H as (ls & li & lt & lb & li' & lt' & lb' & a & b & H).
  destruct H as (Hp & Hl & Hm & Hi & Ht & ->). simpl.
  apply apply_mask_Some_inv in Hm
    as (Hli & Hlt & Hlb & _ & _ & Hri & Hrt & ->).
  pose proof (logits_and_labels_nrows _ _ _ _ _ _ _ _ Hl) as [Hni Hnt].
  exists ls, li, lt, lb, (select lb mask), (true_positions mask).
  unfold nrows in *. rewrite Hri, Hrt.
  repeat split; try done.
  - congruence.
  - apply true_positions_sorted.
  - by intros ?%elem_of_true_positions.
  - by intros ?%elem_of_true_positions.
  - by apply select_positions.
  - by apply select_positions.
  - by apply select_positions.
  - by apply select_length.
  - by apply select_length.
  - by apply select_length.
Qed.

(** ** The call returns on well-shaped inputs

    With one worker, batches of equal size and equal embedding
    dimension, and a mask (if any) as long as the batch, nothing
    raises. *)

Section Returns.

Lemma select_Forall {A : Type} (P : A → Prop) (xs : list A) (mask : BoolTensor) :
  Forall P xs → Forall P (select xs mask).
Proof.
  intros H. revert mask. induction H as [|x xs Hx H IH]; intros [|b mask];
    simpl; try constructor.
  destruct b; [constructor |]; done.
Qed.

Lemma arange_bound n : Forall (λ y, y < n) (arange n).
Proof.
  apply Forall_forall. intros y Hy.
  apply list_elem_of_In, in_seq in Hy. lia.
Qed.

Lemma scaled_matmul_transpose (a t : Tensor2) (s : R) :
  ncols a = ncols t →
  ∃ m, matmul a (transpose t) = Some m
       ∧ nrows (mul_scalar m s) = nrows a
       ∧ ncols (mul_scalar m s) = nrows t.
Proof.
  intros Hd. unfold matmul. rewrite decide_True.
  - eexists. split; [done |]. unfold nrows. simpl.
    by rewrite !length_map.
  - unfold nrows. simpl. by rewrite length_map, length_seq.
Qed.

Lemma cross_entropy_defined (input : Tensor2) (target : LongTensor) :
  nrows input = length target →
  Forall (λ y, y < ncols input) target →
  is_Some (cross_entropy input target).
Proof. intros H1 H2. unfold cross_entropy. by rewrite decide_True. Qed.

Lemma apply_mask_defined mask li lt labels :
  from_option (λ m, length m = length labels) True mask →
  nrows li = length labels → nrows lt = length labels →
  ∃ li' lt' labels',
    apply_mask mask li lt labels = Some (li', lt', labels')
    ∧ ncols li' = ncols li ∧ ncols lt' = ncols lt
    ∧ nrows li' = length labels' ∧ nrows lt' = length labels'
    ∧ (∀ P, Forall P labels → Forall P labels').
Proof.
  intros Hm Hi Ht. destruct mask as [m|]; simpl in *.
  - unfold index_mask, index_mask1.
    rewrite !decide_True by (unfold nrows in *; congruence). simpl.
    eexists _, _, _. split; [done |]. unfold nrows in *. simpl.
    rewrite !select_length by congruence.
    repeat split; try done. intros P. apply select_Forall.
  - eexists _, _, _. split; [done |]. repeat split; done.
Qed.

Lemma single_worker_returns dist image text p mask bp σ ls :
  Dist.is_available dist = false ∨ Dist.is_initialized dist = false →
  nrows image = nrows text →
  ncols image = ncols text →
  from_option (λ m, length m = nrows image) True mask →
  σ !! p = Some ls →
  ∃ out, contrastive_loss_with_temperature dist image text p mask bp σ
         = (Some out, σ).
Proof.
  intros Hoff Hn Hd Hm Hp.
  destruct (scaled_matmul_transpose image text (exp ls) Hd)
    as (mi & Hmi & Hri & Hci).
  destruct (scaled_matmul_transpose text image (exp ls) (eq_sym Hd))
    as (mt & Hmt & Hrt & Hct).
  assert (Hl : logits_and_labels dist image text (exp ls) bp
               = Some (mul_scalar mi (exp ls), mul_scalar mt (exp ls),
                       arange (nrows image))).
  { unfold logits_and_labels. rewrite (gather_inactive _ _ _ _ Hoff). simpl.
    by rewrite Hmi, Hmt. }
  destruct (apply_mask_defined mask (mul_scalar mi (exp ls))
              (mul_scalar mt (exp ls)) (arange (nrows image)))
    as (li' & lt' & lb' & Hmask & Hci' & Hct' & Hri' & Hrt' & Hall).
  { by rewrite arange_length. }
  { by rewrite arange_length. }
  { rewrite arange_length. congruence. }
  destruct (cross_entropy_defined li' lb') as [loss_i Hi]; [done | |].
  { apply Hall. rewrite Hci', Hci, <- Hn. apply arange_bound. }
  destruct (cross_entropy_defined lt' lb') as [loss_t Ht]; [done | |].
  { apply Hall. rewrite Hct', Hct. apply arange_bound. }
  eexists. by eapply contrastive_loss_intro.
Qed.

End Returns.

(** ** Symmetry *)

Section Swap.

Implicit Types (d : Dist.t) (image text : Tensor2).

Lemma contributions_swap_image d x :
  Dist.contributions (swap_dist d) Dist.Image x
  = Dist.contributions d Dist.Text x.
Proof.
  unfold Dist.contributions, swap_dist. simpl. f_equal.
  rewrite <- list_fmap_compose. apply list_fmap_ext. by intros i [a b] _.
Qed.

Lemma contributions_swap_text d x :
  Dist.contributions (swap_dist d) Dist.Text x
  = Dist.contributions d Dist.Image x.
Proof.
  unfold Dist.contributions, swap_dist. simpl. f_equal.
  rewrite <- list_fmap_compose. apply list_fmap_ext. by intros i [a b] _.
Qed.

Lemma all_gather_swap_image d x :
  Dist.all_gather_with_backprop (swap_dist d) Dist.Image x
  = Dist.all_gather_with_backprop d Dist.Text x.
Proof.
  unfold Dist.all_gather_with_backprop. by rewrite contributions_swap_image.
Qed.

Lemma all_gather_swap_text d x :
  Dist.all_gather_with_backprop (swap_dist d) Dist.Text x
  = Dist.all_gather_with_backprop d Dist.Image x.
Proof.
  unfold Dist.all_gather_with_backprop. by rewrite contributions_swap_text.
Qed.

Lemma gather_labels_length d image text bp img_all text_all labels :
  _gather_embeddings_and_labels d image text bp
    = Some (img_all, text_all, labels) →
  length labels = nrows image.
Proof.
  unfold _gather_embeddings_and_labels.
  destruct (negb _ || negb _).
  - intros [= _ _ <-]. apply arange_length.
  - intros H.
    repeat (match type of H with
            | context [match ?x with _ => _ end] => destruct x; simpl in H
            | context [mbind _ ?x] => destruct x; simpl in H
            end; try done);
      injection H as _ _ <-; by rewrite length_map, arange_length.
Qed.

Lemma gather_swap d image text bp img_all text_all labels :
  nrows image = nrows text →
  _gather_embeddings_and_labels d image text bp
    = Some (img_all, text_all, labels) →
  _gather_embeddings_and_labels (swap_dist d) text image bp
    = Some (text_all, img_all, labels).
Proof.
  intros Hn.
  assert (Hbp : ∀ d' a b, _gather_embeddings_and_labels d' a b bp
                          = _gather_embeddings_and_labels d' a b true)
    by (intros; destruct bp; [done | apply gather_backprop_irrelevant]).
  rewrite !Hbp. unfold _gather_embeddings_and_labels. simpl.
  destruct (negb _ || negb _); [rewrite Hn; by intros [= <- <- <-] |].
  rewrite all_gather_swap_image, all_gather_swap_text, Hn.
  destruct (Dist.all_gather_with_backprop d Dist.Image image) as [gi|];
    [| done]; simpl.
  destruct (Dist.all_gather_with_backprop d Dist.Text text) as [gt|];
    [| done]; simpl.
  destruct (cat gi) as [ci|]; [| done]; simpl.
  destruct (cat gt) as [ct|]; [| done]; simpl.
  by intros [= <- <- <-].
Qed.

Lemma swap_dist_inactive d image text bp :
  Dist.is_available d = false ∨ Dist.is_initialized d = false →
  _gather_embeddings_and_labels (swap_dist d) image text bp
  = _gather_embeddings_and_labels d image text bp.
Proof.
  intros Hoff. unfold _gather_embeddings_and_labels. simpl.
  destruct Hoff as [-> | ->]; simpl; [done |]. by rewrite orb_true_r.
Qed.

Lemma cross_entropy_nrows (input : Tensor2) (target : LongTensor) (l : R) :
  cross_entropy input target = Some l → nrows input = length target.
Proof. unfold cross_entropy. case_decide as H; [| done]. by destruct H. Qed.

Lemma apply_mask_swap mask li lt labels li' lt' labels' :
  apply_mask mask li lt labels = Some (li', lt', labels') →
  apply_mask mask lt li labels = Some (lt', li', labels').
Proof.
  destruct mask as [mask|]; simpl; [| by intros [= <- <- <-]].
  destruct (index_mask li mask) as [a|]; [| done]. simpl.
  destruct (index_mask lt mask) as [b|]; [| done]. simpl.
  destruct (index_mask1 labels mask) as [c|]; [| done]. simpl.
  by intros [= <- <- <-].
Qed.

Lemma apply_mask_nrows mask li lt labels li' lt' labels' :
  apply_mask mask li lt labels = Some (li', lt', labels') →
  nrows li' = length labels' → nrows lt' = length labels' →
  nrows li = nrows lt.
Proof.
  destruct mask as [mask|].
  - intros (? & ? & _)%apply_mask_Some_inv _ _. congruence.
  - simpl. intros [= <- <- <-]. congruence.
Qed.

Lemma logits_and_labels_swap d image text temperature bp li lt labels :
  nrows image = nrows text →
  logits_and_labels d image text temperature bp = Some (li, lt, labels) →
  logits_and_labels (swap_dist d) text image temperature bp
  = Some (lt, li, labels).
Proof.
  intros Hn H. apply logits_and_labels_inv in H
    as (img_all & text_all & mi & mt & Hg & Hmi & Hmt & -> & ->).
  unfold logits_and_labels.
  rewrite (gather_swap _ _ _ _ _ _ _ Hn Hg). simpl.
  rewrite Hmt. simpl. rewrite Hmi. done.
Qed.

End Swap.

(** C7 (as amended): with no distributed environment active,
    exchanging the [image_embeddings] and [text_embeddings] arguments
    exchanges the two logit matrices and the two per-direction losses
    and leaves the averaged loss unchanged; in an initialised group
    the same holds when every rank exchanges its two batches. *)
Theorem C7_swap_symmetry dist image text p mask bp σ out σ' :
  contrastive_loss_with_temperature dist image text p mask bp σ
    = (Some out, σ') →
  ∃ out',
    contrastive_loss_with_temperature (swap_dist dist) text image p mask bp σ
      = (Some out', σ')
    ∧ (Dist.is_available dist = false ∨ Dist.is_initialized dist = false →
       contrastive_loss_with_temperature dist text image p mask bp σ
       = (Some out', σ'))
    ∧ loss out' = loss out
    ∧ image_loss out' = text_loss out
    ∧ text_loss out' = image_loss out
    ∧ image_logits out' = text_logits out
    ∧ text_logits out' = image_logits out.
Proof.
  intros H. apply contrastive_loss_inv in H as (-> & H).
  destruct H as (ls & li & lt & lb & li' & lt' & lb' & a & b & H).
  destruct H as (Hp & Hl & Hm & Hi & Ht & ->).
  assert (Hn : nrows image = nrows text).
  { destruct (logits_and_labels_nrows _ _ _ _ _ _ _ _ Hl) as [<- <-].
    eapply apply_mask_nrows; eauto using cross_entropy_nrows. }
  pose proof (logits_and_labels_swap _ _ _ _ _ _ _ _ Hn Hl) as Hl'.
  pose proof (apply_mask_swap _ _ _ _ _ _ _ Hm) as Hm'.
  exists (ContrastiveLossOutput_init ((b + a) / 2) lt' li' b a).
  split; [by eapply contrastive_loss_intro |].
  split.
  - intros Hoff. eapply contrastive_loss_intro; eauto.
    unfold logits_and_labels in *.
    by rewrite <- (swap_dist_inactive _ _ _ _ Hoff).
  - simpl. repeat split; try done. lra.
Qed.

(** ** The output bundle *)

(** C9 (as amended): the value returned carries exactly five named
    fields, in the declaration order [loss], [image_logits],
    [text_logits], [image_loss], [text_loss]: the averaged loss, the
    two logit matrices as they stand after the optional mask, and the
    two per-direction losses. *)
Theorem C9_output_fields dist image text p mask bp σ out σ' :
  contrastive_loss_with_temperature dist image text p mask bp σ
    = (Some out, σ') →
  ∃ ls li lt labels li' lt' labels' loss_i loss_t,
    σ !! p = Some ls
    ∧ logits_and_labels dist image text (exp ls) bp = Some (li, lt, labels)
    ∧ apply_mask mask li lt labels = Some (li', lt', labels')
    ∧ cross_entropy li' labels' = Some loss_i
    ∧ cross_entropy lt' labels' = Some loss_t
    ∧ fields out
      = [("loss", Scalar ((loss_i + loss_t) / 2));
         ("image_logits", Matrix li'); ("text_logits", Matrix lt');
         ("image_loss", Scalar loss_i); ("text_loss", Scalar loss_t)].
Proof.
  intros H. apply contrastive_loss_inv in H as (_ & H).
  destruct H as (ls & li & lt & lb & li' & lt' & lb' & a & b & H).
  destruct H as (Hp & Hl & Hm & Hi & Ht & ->).
  by exists ls, li, lt, lb, li', lt', lb', a, b.
Qed.

(** ** The functional entry point leaves the parameter alone *)

(** C10: [contrastive_loss_with_temperature] never writes the store,
    whether it returns or raises, and scales the logits by the
    exponential of the stored value as it is; [forward] is where the
    stored value is replaced by its clamp. *)
Theorem C10_functional_does_not_clamp dist image text p mask bp σ :
  (contrastive_loss_with_temperature dist image text p mask bp σ).2 = σ
  ∧ (∀ out,
       (contrastive_loss_with_temperature dist image text p mask bp σ).1
         = Some out →
       ∃ ls li lt labels labels',
         σ !! p = Some ls
         ∧ logits_and_labels dist image text (exp ls) bp = Some (li, lt, labels)
         ∧ apply_mask mask li lt labels
           = Some (image_logits out, text_logits out, labels'))
  ∧ (∀ v, σ !! p = Some v →
          (forward {| logit_scale := p |} dist image text bp σ).2
          = <[p := clamp v 0 LOGIT_SCALE_MAX]> σ).
Proof.
  split; [apply contrastive_loss_store |]. split.
  - intros out Hout.
    destruct (contrastive_loss_with_temperature dist image text p mask bp σ)
      as [o σ'] eqn:H. simpl in Hout. subst o.
    apply contrastive_loss_inv in H as (_ & H).
    destruct H as (ls & li & lt & lb & li' & lt' & lb' & a & b & H).
    destruct H as (Hp & Hl & Hm & Hi & Ht & ->).
    by exists ls, li, lt, lb, lb'.
  - intros v Hv. by apply (forward_store {| logit_scale := p |}).
Qed.

(** ** Instances *)

Lemma C5_logits_formation_witness :
  ∃ out,
    contrastive_loss_with_temperature single_worker ab2 eye2 7 None true
      {[7 := 1%R]} = (Some out, {[7 := 1%R]})
    ∧ ∃ ls img_all text_all labels logits_per_image logits_per_text labels',
        ({[7 := 1%R]} : Store) !! 7 = Some ls
        ∧ _gather_embeddings_and_labels single_worker ab2 eye2 true
          = Some (img_all, text_all, labels)
        ∧ scaled_similarity ab2 text_all (exp ls) logits_per_image
        ∧ scaled_similarity eye2 img_all (exp ls) logits_per_text
        ∧ apply_mask None logits_per_image logits_per_text labels
          = Some (image_logits out, text_logits out, labels').
Proof.
  eexists. split.
  - eapply contrastive_loss_intro; reflexivity.
  - eapply (C5_logits_formation single_worker ab2 eye2 7 None true
              {[7 := 1%R]}).
    + unfold wf, ab2. simpl. repeat constructor.
    + unfold wf, eye2. simpl. repeat constructor.
    + eapply contrastive_loss_intro; reflexivity.
Defined.

Lemma C6_mask_filters_rows_witness :
  ∃ out,
    contrastive_loss_with_temperature single_worker abc3 eye3 7
      (Some [true; false; true]) true {[7 := 1%R]} = (Some out, {[7 := 1%R]})
    ∧ ∃ ls logits_per_image logits_per_text labels labels' positions,
        ({[7 := 1%R]} : Store) !! 7 = Some ls
        ∧ logits_and_labels single_worker abc3 eye3 (exp ls) true
          = Some (logits_per_image, logits_per_text, labels)
        ∧ length [true; false; true] = nrows abc3
        ∧ StronglySorted lt positions
        ∧ (∀ i, i ∈ positions ↔ [true; false; true] !! i = Some true)
        ∧ Forall2 (λ r i, rows logits_per_image !! i = Some r)
                  (rows (image_logits out)) positions
        ∧ Forall2 (λ r i, rows logits_per_text !! i = Some r)
                  (rows (text_logits out)) positions
        ∧ Forall2 (λ y i, labels !! i = Some y) labels' positions
        ∧ nrows (image_logits out) = count_true [true; false; true]
        ∧ nrows (text_logits out) = count_true [true; false; true]
        ∧ length labels' = count_true [true; false; true]
        ∧ cross_entropy (image_logits out) labels' = Some (image_loss out)
        ∧ cross_entropy (text_logits out) labels' = Some (text_loss out).
Proof.
  eexists. split.
  - eapply contrastive_loss_intro; reflexivity.
  - eapply (C6_mask_filters_rows single_worker abc3 eye3 7
              [true; false; true] true {[7 := 1%R]}).
    eapply contrastive_loss_intro; reflexivity.
Defined.

(** The labels that survive the mask in that run. *)
Example masked_labels :
  apply_mask (Some [true; false; true]) eye3 eye3 (arange 3)
  = Some ({| ncols := 2; rows := [[1%R; 0%R]; [1%R; 1%R]] |},
          {| ncols := 2; rows := [[1%R; 0%R]; [1%R; 1%R]] |}, [0; 2]).
Proof. reflexivity. Qed.

Lemma C7_swap_symmetry_witness :
  (∃ out,
     contrastive_loss_with_temperature two_workers ab2 eye2 7 None false
       {[7 := 1%R]} = (Some out, {[7 := 1%R]})
     ∧ ∃ out',
         contrastive_loss_with_temperature (swap_dist two_workers) eye2 ab2 7
           None false {[7 := 1%R]} = (Some out', {[7 := 1%R]})
         ∧ (Dist.is_available two_workers = false
            ∨ Dist.is_initialized two_workers = false →
            contrastive_loss_with_temperature two_workers eye2 ab2 7 None false
              {[7 := 1%R]} = (Some out', {[7 := 1%R]}))
         ∧ loss out' = loss out
         ∧ image_loss out' = text_loss out
         ∧ text_loss out' = image_loss out
         ∧ image_logits out' = text_logits out
         ∧ text_logits out' = image_logits out)
  ∧ (∃ out,
       contrastive_loss_with_temperature single_worker abc3 eye3 7
         (Some [true; false; true]) true {[7 := 1%R]}
       = (Some out, {[7 := 1%R]})
       ∧ ∃ out',
           contrastive_loss_with_temperature single_worker eye3 abc3 7
             (Some [true; false; true]) true {[7 := 1%R]}
           = (Some out', {[7 := 1%R]})
           ∧ loss out' = loss out
           ∧ image_loss out' = text_loss out
           ∧ text_loss out' = image_loss out
           ∧ image_logits out' = text_logits out
           ∧ text_logits out' = image_logits out).
Proof.
  split.
  - eexists. split.
    + eapply contrastive_loss_intro; reflexivity.
    + eapply (C7_swap_symmetry two_workers ab2 eye2 7 None false
                {[7 := 1%R]}).
      eapply contrastive_loss_intro; reflexivity.
  - eexists. split.
    + eapply contrastive_loss_intro; reflexivity.
    + destruct (C7_swap_symmetry single_worker abc3 eye3 7
                  (Some [true; false; true]) true {[7 := 1%R]} _ _
                  ltac:(eapply contrastive_loss_intro; reflexivity))
        as (out' & _ & Hsame & Hrest).
      exists out'. split; [| exact Hrest].
      apply Hsame. right. reflexivity.
Defined.

(** C7 (as stated) fails inside an initialised group: at rank 0 of a
    group of two ranks that both hold the image batch [[0]] and the
    text batch [[1]], exchanging the two arguments of the call alone
    changes the averaged loss from [ln 2] to [(ln (1 + e) + ln 2) / 2]. *)
Lemma C7_counterexample :
  ∃ out out',
    contrastive_loss_with_temperature twin_workers zero1 one1 7 None true
      {[7 := 0%R]} = (Some out, {[7 := 0%R]})
    ∧ contrastive_loss_with_temperature twin_workers one1 zero1 7 None true
        {[7 := 0%R]} = (Some out', {[7 := 0%R]})
    ∧ loss out' ≠ loss out.
Proof.
  eexists _, _. split; [eapply contrastive_loss_intro; reflexivity |].
  split; [eapply contrastive_loss_intro; reflexivity |].
  simpl. unfold log_softmax, dot, Rsum. simpl.
  rewrite exp_0.
  replace ((1 * 0 + 0) * 1)%R with 0%R by lra.
  replace ((0 * 1 + 0) * 1)%R with 0%R by lra.
  replace ((0 * 0 + 0) * 1)%R with 0%R by lra.
  replace ((1 * 1 + 0) * 1)%R with 1%R by lra.
  rewrite exp_0.
  assert (Hlt : (ln (1 + (1 + 0)) < ln (1 + (exp 1 + 0)))%R).
  { pose proof (exp_ineq1 1) as He. apply ln_increasing; lra. }
  lra.
Qed.

Lemma C9_output_fields_witness :
  ∃ out,
    contrastive_loss_with_temperature single_worker ab2 eye2 7 None true
      {[7 := 1%R]} = (Some out, {[7 := 1%R]})
    ∧ ∃ ls li lt labels li' lt' labels' loss_i loss_t,
        ({[7 := 1%R]} : Store) !! 7 = Some ls
        ∧ logits_and_labels single_worker ab2 eye2 (exp ls) true
          = Some (li, lt, labels)
        ∧ apply_mask None li lt labels = Some (li', lt', labels')
        ∧ cross_entropy li' labels' = Some loss_i
        ∧ cross_entropy lt' labels' = Some loss_t
        ∧ fields out
          = [("loss", Scalar ((loss_i + loss_t) / 2));
             ("image_logits", Matrix li'); ("text_logits", Matrix lt');
             ("image_loss", Scalar loss_i); ("text_loss", Scalar loss_t)].
Proof.
  eexists. split.
  - eapply contrastive_loss_intro; reflexivity.
  - eapply (C9_output_fields single_worker ab2 eye2 7 None true {[7 := 1%R]}).
    eapply contrastive_loss_intro; reflexivity.
Defined.

(** C9 (as stated) fails: iterating over the returned bundle yields
    none of its fields, so a caller cannot unpack five values from it,
    and the bundle accepts assignment to a field. *)
Lemma C9_counterexample :
  ∃ out,
    contrastive_loss_with_temperature single_worker ab2 eye2 7 None true
      {[7 := 1%R]} = (Some out, {[7 := 1%R]})
    ∧ iter out = []
    ∧ length (iter out) ≠ length (fields out)
    ∧ ∃ out', set_loss out (loss out + 1) = Some out' ∧ loss out' ≠ loss out.
Proof.
  eexists. split; [eapply contrastive_loss_intro; reflexivity |].
  split; [reflexivity |]. split; [simpl; lia |].
  eexists. split; [reflexivity |]. simpl. lra.
Qed.

Lemma C10_functional_does_not_clamp_witness :
  (contrastive_loss_with_temperature single_worker ab2 eye2 7 None true
     {[7 := 10%R]}).2 = {[7 := 10%R]}
  ∧ (∀ out,
       (contrastive_loss_with_temperature single_worker ab2 eye2 7 None true
          {[7 := 10%R]}).1 = Some out →
       ∃ ls li lt labels labels',
         ({[7 := 10%R]} : Store) !! 7 = Some ls
         ∧ logits_and_labels single_worker ab2 eye2 (exp ls) true
           = Some (li, lt, labels)
         ∧ apply_mask None li lt labels
           = Some (image_logits out, text_logits out, labels'))
  ∧ (∀ v, ({[7 := 10%R]} : Store) !! 7 = Some v →
          (forward {| logit_scale := 7 |} single_worker ab2 eye2 true
             {[7 := 10%R]}).2
          = <[7 := clamp v 0 LOGIT_SCALE_MAX]> {[7 := 10%R]}).
Proof.
  apply (C10_functional_does_not_clamp single_worker ab2 eye2 7 None true
           {[7 := 10%R]}).
Defined.

(** With the out-of-range value 10 in the store, the functional entry
    point returns logits scaled by [exp 10] and leaves 10 in place,
    while [forward] leaves [4.6052]. *)
Example out_of_range_logit_scale :
  (∃ out,
     contrastive_loss_with_temperature single_worker ab2 eye2 7 None true
       {[7 := 10%R]} = (Some out, {[7 := 10%R]})
     ∧ image_logits out = mul_scalar ab2 (exp 10))
  ∧ (forward {| logit_scale := 7 |} single_worker ab2 eye2 true
       {[7 := 10%R]}).2 !! 7 = Some LOGIT_SCALE_MAX.
Proof.
  split; [apply example_run |].
  erewrite forward_store; [| reflexivity]. rewrite lookup_insert_eq.
  f_equal. unfold LOGIT_SCALE_MAX. apply clamp_above; lra.
Qed.

(** * Further properties of the module wrapper *)

Section Wrapper.

Implicit Types (self : ContrastiveLossWithTemperature.t) (σ : Store).

(** [forward] when the parameter is present: the clamp is written,
    then the functional entry point runs without a mask. *)
Lemma forward_present self dist image text bp σ v :
  σ !! logit_scale self = Some v →
  forward self dist image text bp σ
  = (loss <$> (contrastive_loss_with_temperature dist image text
                 (logit_scale self) None bp
                 (<[logit_scale self := clamp v 0 LOGIT_SCALE_MAX]> σ)).1,
     <[logit_scale self := clamp v 0 LOGIT_SCALE_MAX]> σ).
Proof.
  intros Hv. unfold forward. unfold_M. rewrite Hv.
  pose proof (contrastive_loss_store dist image text (logit_scale self) None bp
                (<[logit_scale self := clamp v 0 LOGIT_SCALE_MAX]> σ)) as Hs.
  destruct (contrastive_loss_with_temperature _ _ _ _ _ _ _) as [[out|] σ'];
    simpl in *; by subst.
Qed.

Lemma forward_absent self dist image text bp σ :
  σ !! logit_scale self = None →
  forward self dist image text bp σ = (None, σ).
Proof. intros Hv. unfold forward. unfold_M. by rewrite Hv. Qed.

Lemma clamp_idempotent (x lo hi : R) :
  (lo <= hi)%R → clamp (clamp x lo hi) lo hi = clamp x lo hi.
Proof. intros H. apply clamp_inside. by apply clamp_range. Qed.

Lemma LOGIT_SCALE_MAX_pos : (0 <= LOGIT_SCALE_MAX)%R.
Proof. unfold LOGIT_SCALE_MAX. lra. Qed.

End Wrapper.

(** X1: a parameter handed to the constructor is adopted, not copied.
    Two modules built from one parameter (as all modules built with
    the default argument are) share it: after [forward] on the first,
    the second reads the clamped value. *)
Theorem X1_adopted_parameter_is_shared q σ v dist image text bp m1 m2 σ1 σ2 :
  σ !! q = Some v →
  __init__ (Param q) σ = (Some m1, σ1) →
  __init__ (Param q) σ1 = (Some m2, σ2) →
  σ2 = σ
  ∧ logit_scale m1 = q ∧ logit_scale m2 = q
  ∧ (forward m1 dist image text bp σ2).2 !! logit_scale m2
    = Some (clamp v 0 LOGIT_SCALE_MAX).
Proof.
  intros Hv [= <- <-] [= <- <-]. simpl.
  repeat split; try done.
  rewrite (forward_store _ _ _ _ _ _ v) by done. apply lookup_insert_eq.
Qed.

Lemma X1_adopted_parameter_is_shared_witness :
  import_store = import_store
  ∧ logit_scale {| logit_scale := DEFAULT_LOGIT_SCALE |} = DEFAULT_LOGIT_SCALE
  ∧ logit_scale {| logit_scale := DEFAULT_LOGIT_SCALE |} = DEFAULT_LOGIT_SCALE
  ∧ (forward {| logit_scale := DEFAULT_LOGIT_SCALE |} single_worker eye2 eye2
       true import_store).2 !! DEFAULT_LOGIT_SCALE
    = Some (clamp (ln (1 / (7 / 100)) * 1) 0 LOGIT_SCALE_MAX).
Proof.
  apply (X1_adopted_parameter_is_shared DEFAULT_LOGIT_SCALE import_store
           (ln (1 / (7 / 100)) * 1)%R single_worker eye2 eye2 true
           {| logit_scale := DEFAULT_LOGIT_SCALE |}
           {| logit_scale := DEFAULT_LOGIT_SCALE |} import_store import_store);
    reflexivity.
Defined.

(** X2: a module built from a float gets a parameter of its own: the
    constructor always succeeds, the new parameter was not in the
    store before, it holds the float, and no existing parameter is
    touched. *)
Theorem X2_float_gets_fresh_parameter (x : R) (σ : Store) :
  ∃ m, __init__ (Float x) σ = (Some m, <[logit_scale m := x]> σ)
       ∧ σ !! logit_scale m = None
       ∧ ∀ q, is_Some (σ !! q) →
              q ≠ logit_scale m
              ∧ (<[logit_scale m := x]> σ) !! q = σ !! q.
Proof.
  set (p0 := fresh (dom σ) : nn_Parameter).
  assert (Hfresh : σ !! p0 = None) by apply not_elem_of_dom, is_fresh.
  exists {| logit_scale := p0 |}. simpl.
  split; [| split; [done |]].
  - unfold __init__. unfold_M. by rewrite Rmult_1_r.
  - intros q [y Hq].
    assert (q ≠ p0) by congruence.
    split; [done |]. by rewrite lookup_insert_ne.
Qed.

(** X3: [forward] is idempotent on the parameter: a second call with
    the same arguments finds the value already clamped, leaves the
    store as the first call left it and gives the same result. *)
Theorem X3_forward_idempotent self dist image text bp (σ : Store) :
  forward self dist image text bp (forward self dist image text bp σ).2
  = forward self dist image text bp σ.
Proof.
  destruct (σ !! logit_scale self) as [v|] eqn:Hv.
  - rewrite (forward_present _ _ _ _ _ _ v Hv). simpl.
    rewrite (forward_present _ _ _ _ _ _ (clamp v 0 LOGIT_SCALE_MAX))
      by apply lookup_insert_eq.
    rewrite clamp_idempotent by apply LOGIT_SCALE_MAX_pos.
    by rewrite insert_insert_eq.
  - rewrite (forward_absent _ _ _ _ _ _ Hv). simpl.
    by apply forward_absent.
Qed.

(** X4: [forward] writes its own parameter only: every other
    parameter keeps its value and no parameter is created or
    removed, whether the call returns or raises. *)
Theorem X4_forward_frame self dist image text bp (σ : Store) :
  dom (forward self dist image text bp σ).2 = dom σ
  ∧ ∀ q, q ≠ logit_scale self →
         (forward self dist image text bp σ).2 !! q = σ !! q.
Proof.
  destruct (σ !! logit_scale self) as [v|] eqn:Hv.
  - rewrite (forward_present _ _ _ _ _ _ v Hv). simpl. split.
    + rewrite dom_insert_L. apply elem_of_dom_2 in Hv.
      apply (anti_symm (⊆)); [| apply union_subseteq_r].
      apply union_subseteq. split; [by apply singleton_subseteq_l | done].
    + intros q Hq. by rewrite lookup_insert_ne.
  - rewrite (forward_absent _ _ _ _ _ _ Hv). done.
Qed.

Lemma X4_forward_frame_witness :
  dom (forward {| logit_scale := 7 |} single_worker eye2 eye2 true
         {[7 := 10%R]}).2 = dom ({[7 := 10%R]} : Store)
  ∧ ∀ q, q ≠ 7 →
         (forward {| logit_scale := 7 |} single_worker eye2 eye2 true
            {[7 := 10%R]}).2 !! q = ({[7 := 10%R]} : Store) !! q.
Proof.
  apply (X4_forward_frame {| logit_scale := 7 |} single_worker eye2 eye2 true
           {[7 := 10%R]}).
Defined.

(** X5: the value the default parameter is created with,
    [ln (1 / 0.07)], lies inside the clamp range, so [forward] on a
    module that uses the default leaves the store exactly as the
    import left it. *)
Theorem X5_default_inside_clamp_range dist image text bp :
  (0 <= ln (1 / (7 / 100)) * 1 <= LOGIT_SCALE_MAX)%R
  ∧ (forward {| logit_scale := DEFAULT_LOGIT_SCALE |} dist image text bp
       import_store).2 = import_store.
Proof.
  assert (Hrange : (0 <= ln (1 / (7 / 100)) * 1 <= LOGIT_SCALE_MAX)%R).
  { rewrite Rmult_1_r. split.
    - rewrite <- ln_1. left. apply ln_increasing; lra.
    - left. eapply Rlt_trans; [| apply ln100_lt_LOGIT_SCALE_MAX].
      apply ln_increasing; lra. }
  split; [done |].
  rewrite (forward_store _ _ _ _ _ _ (ln (1 / (7 / 100)) * 1)%R)
    by reflexivity.
  rewrite clamp_inside by done. simpl.
  apply insert_id. reflexivity.
Qed.

(** * Further properties of the gather and of the functional entry point *)

Section GatherInversion.

Implicit Types (d : Dist.t) (image text : Tensor2).

Lemma gather_flag d image text bp :
  _gather_embeddings_and_labels d image text bp
  = _gather_embeddings_and_labels d image text true.
Proof. destruct bp; [done | apply gather_backprop_irrelevant]. Qed.

(** What a returning gather in an initialised group went through. *)
Lemma gather_active_inv d image text bp img_all text_all labels :
  Dist.is_available d = true → Dist.is_initialized d = true →
  _gather_embeddings_and_labels d image text bp
    = Some (img_all, text_all, labels) →
  Dist.uniform image (Dist.contributions d Dist.Image image)
  ∧ Dist.uniform text (Dist.contributions d Dist.Text text)
  ∧ cat (Dist.contributions d Dist.Image image) = Some img_all
  ∧ cat (Dist.contributions d Dist.Text text) = Some text_all
  ∧ labels = map (λ i, nrows image * Dist.get_rank d + i)
                 (arange (nrows image)).
Proof.
  intros Ha Hi. rewrite gather_flag.
  unfold _gather_embeddings_and_labels. rewrite Ha, Hi. simpl.
  unfold Dist.all_gather_with_backprop.
  destruct (decide (Dist.uniform image _)) as [Hui|]; [| done]. simpl.
  destruct (decide (Dist.uniform text _)) as [Hut|]; [| done]. simpl.
  destruct (cat (Dist.contributions d Dist.Image image)) as [ci|] eqn:Hci;
    [| done]. simpl.
  destruct (cat (Dist.contributions d Dist.Text text)) as [ct|] eqn:Hct;
    [| done]. simpl.
  by intros [= <- <- <-].
Qed.

Lemma gather_inactive_inv d image text bp img_all text_all labels :
  Dist.is_available d = false ∨ Dist.is_initialized d = false →
  _gather_embeddings_and_labels d image text bp
    = Some (img_all, text_all, labels) →
  img_all = image ∧ text_all = text ∧ labels = arange (nrows image).
Proof.
  intros Hoff. rewrite (gather_inactive _ _ _ _ Hoff). by intros [= <- <- <-].
Qed.

Lemma active_or_not d :
  (Dist.is_available d = true ∧ Dist.is_initialized d = true)
  ∨ (Dist.is_available d = false ∨ Dist.is_initialized d = false).
Proof. destruct (Dist.is_available d), (Dist.is_initialized d); auto. Qed.

Lemma cat_ncols_uniform (x t : Tensor2) (ts : list Tensor2) :
  Dist.uniform x ts → cat ts = Some t → ncols t = ncols x.
Proof.
  intros Hu. unfold cat. destruct ts as [|t0 ts]; [done |].
  case_decide; [| done]. intros [= <-]. simpl.
  apply Forall_inv in Hu. by destruct Hu as [_ ->].
Qed.

(** The gathered batches keep the embedding dimensions of the local
    ones. *)
Lemma gather_ncols d image text bp img_all text_all labels :
  _gather_embeddings_and_labels d image text bp
    = Some (img_all, text_all, labels) →
  ncols img_all = ncols image ∧ ncols text_all = ncols text.
Proof.
  intros H. destruct (active_or_not d) as [[Ha Hi] | Hoff].
  - apply gather_active_inv in H as (Hui & Hut & Hci & Hct & _); [| done..].
    split; eapply cat_ncols_uniform; eauto.
  - by apply gather_inactive_inv in H as (-> & -> & _).
Qed.

Lemma matmul_transpose_defined (a t m : Tensor2) :
  matmul a (transpose t) = Some m → ncols a = ncols t.
Proof.
  unfold matmul. case_decide as Hd; [| done]. intros _.
  unfold nrows in Hd. simpl in Hd. by rewrite length_map, length_seq in Hd.
Qed.

End GatherInversion.

Section ReturningCall.

Context (dist : Dist.t) (image text : Tensor2) (p : nn_Parameter)
        (mask : option BoolTensor) (bp : bool) (σ σ' : Store)
        (out : ContrastiveLossOutput).

Hypothesis Hreturns :
  contrastive_loss_with_temperature dist image text p mask bp σ
  = (Some out, σ').

Lemma returning_call_parameter : is_Some (σ !! p).
Proof.
  apply contrastive_loss_inv in Hreturns as (_ & H).
  destruct H as (ls & li & lt & lb & li' & lt' & lb' & a & b & H).
  destruct H as (Hp & _). eauto.
Qed.

Lemma returning_call_rows : nrows image = nrows text.
Proof.
  apply contrastive_loss_inv in Hreturns as (_ & H).
  destruct H as (ls & li & lt & lb & li' & lt' & lb' & a & b & H).
  destruct H as (Hp & Hl & Hm & Hi & Ht & _).
  destruct (logits_and_labels_nrows _ _ _ _ _ _ _ _ Hl) as [<- <-].
  eapply apply_mask_nrows; eauto using cross_entropy_nrows.
Qed.

Lemma returning_call_cols : ncols image = ncols text.
Proof.
  apply contrastive_loss_inv in Hreturns as (_ & H).
  destruct H as (ls & li & lt & lb & li' & lt' & lb' & a & b & H).
  destruct H as (Hp & Hl & _).
  apply logits_and_labels_inv in Hl
    as (img_all & text_all & mi & mt & Hg & Hmi & _ & _ & _).
  apply matmul_transpose_defined in Hmi.
  apply gather_ncols in Hg as [_ Hg]. congruence.
Qed.

Lemma returning_call_mask :
  from_option (λ m, length m = nrows image) True mask.
Proof.
  apply contrastive_loss_inv in Hreturns as (_ & H).
  destruct H as (ls & li & lt & lb & li' & lt' & lb' & a & b & H).
  destruct H as (Hp & Hl & Hm & _).
  destruct (logits_and_labels_nrows _ _ _ _ _ _ _ _ Hl) as [Hni _].
  destruct mask as [m|]; simpl; [| done].
  apply apply_mask_Some_inv in Hm as (Hlen & _). congruence.
Qed.

End ReturningCall.

(** X6: in every configuration, a call that returns was given image
    and text batches with the same number of rows and the same
    embedding dimension, a mask (if any) as long as the batch, and a
    parameter that exists; any other call raises. *)
Theorem X6_returning_call_shapes dist image text p mask bp σ out σ' :
  contrastive_loss_with_temperature dist image text p mask bp σ
    = (Some out, σ') →
  is_Some (σ !! p)
  ∧ nrows image = nrows text
  ∧ ncols image = ncols text
  ∧ from_option (λ m, length m = nrows image) True mask.
Proof.
  intros H. split; [| split; [| split]].
  - eapply returning_call_parameter, H.
  - eapply returning_call_rows, H.
  - eapply returning_call_cols, H.
  - eapply returning_call_mask, H.
Qed.

Lemma X6_returning_call_shapes_witness :
  ∃ out,
    contrastive_loss_with_temperature two_workers ab2 eye2 7
      (Some [false; true]) false {[7 := 1%R]} = (Some out, {[7 := 1%R]})
    ∧ is_Some (({[7 := 1%R]} : Store) !! 7)
    ∧ nrows ab2 = nrows eye2
    ∧ ncols ab2 = ncols eye2
    ∧ from_option (λ m, length m = nrows ab2) True (Some [false; true]).
Proof.
  eexists. split.
  - eapply contrastive_loss_intro; reflexivity.
  - eapply (X6_returning_call_shapes two_workers ab2 eye2 7
              (Some [false; true]) false {[7 := 1%R]}).
    eapply contrastive_loss_intro; reflexivity.
Defined.

(** X7: with no distributed environment active those conditions are
    also sufficient: the call returns exactly when the parameter
    exists, the two batches have the same number of rows and the same
    embedding dimension, and the mask (if any) is as long as the
    batch. *)
Theorem X7_single_worker_returns_iff dist image text p mask bp σ :
  Dist.is_available dist = false ∨ Dist.is_initialized dist = false →
  (∃ out, contrastive_loss_with_temperature dist image text p mask bp σ
          = (Some out, σ))
  ↔ (is_Some (σ !! p)
     ∧ nrows image = nrows text
     ∧ ncols image = ncols text
     ∧ from_option (λ m, length m = nrows image) True mask).
Proof.
  intros Hoff. split.
  - intros [out H]. split; [| split; [| split]].
    + eapply returning_call_parameter, H.
    + eapply returning_call_rows, H.
    + eapply returning_call_cols, H.
    + eapply returning_call_mask, H.
  - intros ([ls Hp] & Hn & Hd & Hm).
    by eapply single_worker_returns.
Qed.

Lemma X7_single_worker_returns_iff_witness :
  (∃ out, contrastive_loss_with_temperature single_worker abc3 ab2 7 None true
            {[7 := 1%R]} = (Some out, {[7 := 1%R]}))
  ↔ (is_Some (({[7 := 1%R]} : Store) !! 7)
     ∧ nrows abc3 = nrows ab2
     ∧ ncols abc3 = ncols ab2
     ∧ from_option (λ m : BoolTensor, length m = nrows abc3) True None).
Proof.
  apply (X7_single_worker_returns_iff single_worker abc3 ab2 7 None true
           {[7 := 1%R]}).
  right. reflexivity.
Defined.

(** Batches of three and of two rows: the call raises. *)
Example unequal_batches_raise :
  (contrastive_loss_with_temperature single_worker abc3 ab2 7 None true
     {[7 := 1%R]}).1 = None.
Proof. reflexivity. Qed.

Section LabelsAndMask.

Implicit Types (d : Dist.t) (image text t : Tensor2) (mask : BoolTensor).

Lemma select_all_true {A : Type} (xs : list A) :
  select xs (replicate (length xs) true) = xs.
Proof. induction xs as [|x xs IH]; simpl; [done | by rewrite IH]. Qed.

Lemma tensor_eta t : {| ncols := ncols t; rows := rows t |} = t.
Proof. by destruct t. Qed.

Lemma index_mask_all_true t n :
  n = nrows t → index_mask t (replicate n true) = Some t.
Proof.
  intros ->. unfold index_mask, index_mask1, nrows.
  rewrite decide_True by apply length_replicate. simpl.
  by rewrite select_all_true, tensor_eta.
Qed.

Lemma index_mask_wrong_length t mask :
  length mask ≠ nrows t → index_mask t mask = None.
Proof.
  intros H. unfold index_mask, index_mask1. by rewrite decide_False.
Qed.

Lemma cross_entropy_mismatch (input : Tensor2) (target : LongTensor) :
  nrows input ≠ length target → cross_entropy input target = None.
Proof.
  intros H. unfold cross_entropy. rewrite decide_False; [done |].
  by intros [? _].
Qed.

Lemma logits_and_labels_length d image text temperature bp li lt labels :
  logits_and_labels d image text temperature bp = Some (li, lt, labels) →
  length labels = nrows image.
Proof.
  intros H. apply logits_and_labels_inv in H
    as (img_all & text_all & mi & mt & Hg & _).
  by eapply gather_labels_length.
Qed.

End LabelsAndMask.

Section LabelsLocate.

Context (d : Dist.t) (image text img_all text_all : Tensor2)
        (labels : LongTensor) (bp : bool).

Hypothesis Hgather :
  _gather_embeddings_and_labels d image text bp
  = Some (img_all, text_all, labels).
Hypothesis Hrows : nrows image = nrows text.

Lemma labels_locate_active (i : nat) :
  Dist.is_available d = true → Dist.is_initialized d = true →
  Dist.get_rank d < Dist.get_world_size d →
  i < nrows image →
  ∃ y, labels !! i = Some y
       ∧ rows img_all !! y = rows image !! i
       ∧ rows text_all !! y = rows text !! i.
Proof.
  intros Ha Hini Hrank Hi.
  apply gather_active_inv in Hgather as (Hui & Hut & Hci & Hct & ->);
    [| done..].
  exists (Dist.get_rank d * nrows image + i).
  apply cat_rows in Hci, Hct. rewrite Hci, Hct.
  split; [| split].
  - rewrite lookup_map, arange_lookup by done. simpl. f_equal. lia.
  - apply concat_lookup_uniform; [by apply uniform_rows | | done].
    by rewrite list_lookup_fmap, contributions_local.
  - rewrite Hrows. apply concat_lookup_uniform;
      [by apply uniform_rows | | by rewrite <- Hrows].
    by rewrite list_lookup_fmap, contributions_local.
Qed.

Lemma labels_locate_inactive (i : nat) :
  Dist.is_available d = false ∨ Dist.is_initialized d = false →
  i < nrows image →
  ∃ y, labels !! i = Some y
       ∧ rows img_all !! y = rows image !! i
       ∧ rows text_all !! y = rows text !! i.
Proof.
  intros Hoff Hi.
  apply gather_inactive_inv in Hgather as (-> & -> & ->); [| done].
  exists i. by rewrite arange_lookup.
Qed.

End LabelsLocate.

(** X8: the label of local sample [i] is the row of the gathered
    batches that holds sample [i] itself: when the gather returns (at
    a rank that belongs to the group, for batches of equal size), row
    [labels[i]] of the gathered image batch is row [i] of the local
    image batch, and likewise for text. *)
Theorem X8_labels_locate_own_samples d image text bp img_all text_all labels :
  _gather_embeddings_and_labels d image text bp
    = Some (img_all, text_all, labels) →
  (Dist.is_available d = false ∨ Dist.is_initialized d = false)
  ∨ Dist.get_rank d < Dist.get_world_size d →
  nrows image = nrows text →
  ∀ i, i < nrows image →
       ∃ y, labels !! i = Some y
            ∧ rows img_all !! y = rows image !! i
            ∧ rows text_all !! y = rows text !! i.
Proof.
  intros Hg Hrank Hn i Hi.
  destruct (active_or_not d) as [[Ha Hini] | Hoff].
  - destruct Hrank as [[Hoff | Hoff] | Hrank]; [congruence.. |].
    by eapply labels_locate_active.
  - by eapply labels_locate_inactive.
Qed.

Lemma X8_labels_locate_own_samples_witness :
  ∃ img_all text_all labels,
    _gather_embeddings_and_labels two_workers ab2 eye2 false
    = Some (img_all, text_all, labels)
    ∧ ∀ i, i < nrows ab2 →
           ∃ y, labels !! i = Some y
                ∧ rows img_all !! y = rows ab2 !! i
                ∧ rows text_all !! y = rows eye2 !! i.
Proof.
  eexists _, _, _. split; [reflexivity |].
  apply (X8_labels_locate_own_samples two_workers ab2 eye2 false).
  - reflexivity.
  - right. unfold Dist.get_world_size. simpl. lia.
  - reflexivity.
Defined.

(** X9: a mask that keeps every sample changes nothing: the call with
    an all-[True] mask of the length of the local batch gives the
    result, or raises, exactly as the call without a mask. *)
Theorem X9_full_mask_is_no_mask dist image text p bp (σ : Store) :
  contrastive_loss_with_temperature dist image text p
    (Some (replicate (nrows image) true)) bp σ
  = contrastive_loss_with_temperature dist image text p None bp σ.
Proof.
  unfold contrastive_loss_with_temperature. unfold_M.
  destruct (σ !! p) as [ls|]; [| done].
  destruct (logits_and_labels dist image text (exp ls) bp)
    as [[[li lt] lb]|] eqn:Hl; [| done].
  destruct (logits_and_labels_nrows _ _ _ _ _ _ _ _ Hl) as [Hni Hnt].
  pose proof (logits_and_labels_length _ _ _ _ _ _ _ _ Hl) as Hlb.
  unfold apply_mask.
  rewrite (index_mask_all_true li) by done. simpl.
  destruct (decide (nrows image = nrows text)) as [Heq | Hne].
  - rewrite (index_mask_all_true lt) by congruence. simpl.
    unfold index_mask1. rewrite decide_True
      by (rewrite length_replicate; congruence).
    simpl. rewrite <- Hlb, select_all_true. done.
  - rewrite index_mask_wrong_length
      by (rewrite length_replicate; congruence).
    simpl. rewrite (cross_entropy_mismatch lt lb) by congruence.
    by destruct (cross_entropy li lb).
Qed.

(** X10: a group of one worker behaves as no group at all: in an
    initialised group whose only rank is the caller, the gather and
    the whole loss computation give what they give with no
    distributed environment. *)
Theorem X10_group_of_one d d' image text p mask bp (σ : Store) :
  Dist.is_available d = true → Dist.is_initialized d = true →
  Dist.get_rank d = 0 → Dist.get_world_size d = 1 →
  Dist.is_available d' = false ∨ Dist.is_initialized d' = false →
  _gather_embeddings_and_labels d image text bp
  = _gather_embeddings_and_labels d' image text bp
  ∧ contrastive_loss_with_temperature d image text p mask bp σ
    = contrastive_loss_with_temperature d' image text p mask bp σ.
Proof.
  intros Ha Hi Hr Hw Hoff.
  assert (Hg : _gather_embeddings_and_labels d image text bp
               = _gather_embeddings_and_labels d' image text bp).
  { rewrite (gather_inactive d' _ _ _ Hoff), gather_flag.
    unfold _gather_embeddings_and_labels. rewrite Ha, Hi. simpl.
    unfold Dist.all_gather_with_backprop, Dist.contributions,
      Dist.get_world_size in *.
    rewrite Hr. destruct (Dist.workers d) as [|w [|w' ws]]; try done.
    simpl. rewrite !decide_True by (by repeat constructor). simpl.
    rewrite !decide_True by (by repeat constructor). simpl.
    rewrite !app_nil_r, !tensor_eta. do 3 f_equal.
    rewrite Nat.mul_0_r. apply map_id. }
  split; [done |].
  unfold contrastive_loss_with_temperature, logits_and_labels.
  by rewrite Hg.
Qed.

Lemma X10_group_of_one_witness :
  _gather_embeddings_and_labels one_worker_group abc3 eye3 true
  = _gather_embeddings_and_labels single_worker abc3 eye3 true
  ∧ contrastive_loss_with_temperature one_worker_group abc3 eye3 7 None true
      {[7 := 1%R]}
    = contrastive_loss_with_temperature single_worker abc3 eye3 7 None true
        {[7 := 1%R]}.
Proof.
  apply (X10_group_of_one one_worker_group single_worker abc3 eye3 7 None true
           {[7 := 1%R]}); try reflexivity.
  right. reflexivity.
Defined.

(** * Further properties of the values computed *)

Section Values.

Local Open Scope R_scope.

Lemma Rsum_nonneg (xs : list R) : Forall (λ x, 0 <= x) xs → 0 <= Rsum xs.
Proof.
  induction 1 as [|x xs Hx Hxs IH]; unfold Rsum; simpl; [lra |].
  fold (Rsum xs). lra.
Qed.

Lemma Rsum_elem_le (xs : list R) (x : R) :
  Forall (λ x, 0 <= x) xs → x ∈ xs → x <= Rsum xs.
Proof.
  induction 1 as [|x0 xs Hx0 Hxs IH]; [by intros ?%elem_of_nil |].
  pose proof (Rsum_nonneg xs Hxs) as Hs.
  unfold Rsum in *. simpl. intros [-> | Hin]%elem_of_cons; [lra |].
  specialize (IH Hin). lra.
Qed.

Lemma exps_nonneg (row : list R) : Forall (λ x, 0 <= x) (map exp row).
Proof.
  apply Forall_forall. intros e He.
  apply list_elem_of_In, in_map_iff in He as (x & <- & _).
  left. apply exp_pos.
Qed.

(** Every log-probability is at most 0. *)
Lemma log_softmax_nonpos (row : list R) (y : nat) :
  nth y (log_softmax row) 0 <= 0.
Proof.
  unfold log_softmax. rewrite nth_lookup, lookup_map.
  destruct (row !! y) as [x|] eqn:Hx; simpl; [| lra].
  assert (Hle : exp x <= Rsum (map exp row)).
  { apply Rsum_elem_le; [apply exps_nonneg |].
    apply list_elem_of_In, in_map, list_elem_of_In.
    by eapply list_elem_of_lookup_2. }
  assert (x <= ln (Rsum (map exp row))); [| lra].
  rewrite <- (ln_exp x) at 1. destruct Hle as [Hlt | <-]; [| lra].
  left. apply ln_increasing; [apply exp_pos | done].
Qed.

Lemma nll_terms_nonneg (rs : list (list R)) (target : LongTensor) :
  Forall (λ x, 0 <= x)
         (zip_with (λ r y, - nth y (log_softmax r) 0) rs target).
Proof.
  revert target. induction rs as [|r rs IH]; intros [|y target]; simpl;
    try constructor; [| apply IH].
  pose proof (log_softmax_nonpos r y). lra.
Qed.

Lemma cross_entropy_nonneg (input : Tensor2) (target : LongTensor) (l : R) :
  (0 < nrows input)%nat →
  cross_entropy input target = Some l → 0 <= l.
Proof.
  intros Hn. unfold cross_entropy. case_decide; [| done]. intros [= <-].
  apply Rmult_le_pos; [apply Rsum_nonneg, nll_terms_nonneg |].
  left. apply Rinv_0_lt_compat, lt_0_INR. lia.
Qed.

Lemma spec_logit_sym (a b : Tensor2) (s : R) (i j : nat) :
  ncols a = ncols b → spec_logit b a s j i = spec_logit a b s i j.
Proof.
  intros Hd. unfold spec_logit. rewrite Hd. do 2 f_equal.
  apply map_ext. intros k. apply Rmult_comm.
Qed.

End Values.

(** X11: the losses are never negative: when the call returns and at
    least one sample is kept, the image loss, the text loss and their
    average are all at least 0. *)
Theorem X11_losses_nonnegative dist image text p mask bp σ out σ' :
  contrastive_loss_with_temperature dist image text p mask bp σ
    = (Some out, σ') →
  0 < nrows (image_logits out) →
  (0 <= image_loss out)%R ∧ (0 <= text_loss out)%R ∧ (0 <= loss out)%R.
Proof.
  intros H Hn. apply contrastive_loss_inv in H as (_ & H).
  destruct H as (ls & li & lt & lb & li' & lt' & lb' & a & b & H).
  destruct H as (Hp & Hl & Hm & Hi & Ht & ->). simpl in *.
  assert (Ha : (0 <= a)%R) by (by eapply cross_entropy_nonneg).
  assert (Hb : (0 <= b)%R).
  { eapply cross_entropy_nonneg; [| done].
    apply cross_entropy_nrows in Hi, Ht. lia. }
  repeat split; try done. lra.
Qed.

Lemma X11_losses_nonnegative_witness :
  ∃ out,
    contrastive_loss_with_temperature single_worker abc3 eye3 7
      (Some [true; false; true]) true {[7 := 1%R]} = (Some out, {[7 := 1%R]})
    ∧ (0 <= image_loss out)%R ∧ (0 <= text_loss out)%R ∧ (0 <= loss out)%R.
Proof.
  eexists. split.
  - eapply contrastive_loss_intro; reflexivity.
  - eapply (X11_losses_nonnegative single_worker abc3 eye3 7
              (Some [true; false; true]) true {[7 := 1%R]}).
    + eapply contrastive_loss_intro; reflexivity.
    + unfold nrows. simpl. lia.
Defined.

(** X12: with no distributed environment and no mask, the text logits
    are the transpose of the image logits: [text_logits[j][i] =
    image_logits[i][j]], and the two shapes mirror each other. *)
Theorem X12_text_logits_transpose dist image text p bp σ out σ' :
  Dist.is_available dist = false ∨ Dist.is_initialized dist = false →
  wf image → wf text →
  contrastive_loss_with_temperature dist image text p None bp σ
    = (Some out, σ') →
  nrows (text_logits out) = ncols (image_logits out)
  ∧ ncols (text_logits out) = nrows (image_logits out)
  ∧ ∀ i j, i < nrows image → j < nrows text →
           entry (text_logits out) j i = entry (image_logits out) i j.
Proof.
  intros Hoff Hwi Hwt H. apply contrastive_loss_inv in H as (_ & H).
  destruct H as (ls & li & lt & lb & li' & lt' & lb' & a & b & H).
  destruct H as (Hp & Hl & Hm & _ & _ & ->). simpl.
  injection Hm as <- <- <-.
  apply logits_and_labels_inv in Hl
    as (img_all & text_all & mi & mt & Hg & Hmi & Hmt & -> & ->).
  apply gather_inactive_inv in Hg as (-> & -> & _); [| done].
  pose proof (matmul_transpose_defined _ _ _ Hmi) as Hd.
  destruct (matmul_transpose image text mi (exp ls) Hwi Hmi)
    as (Hri & Hci & _ & Hei).
  destruct (matmul_transpose text image mt (exp ls) Hwt Hmt)
    as (Hrt & Hct & _ & Het).
  split; [congruence |]. split; [congruence |].
  intros i j Hi Hj. rewrite Het, Hei by done.
  by apply spec_logit_sym.
Qed.

Lemma X12_text_logits_transpose_witness :
  ∃ out,
    contrastive_loss_with_temperature single_worker abc3 eye3 7 None true
      {[7 := 1%R]} = (Some out, {[7 := 1%R]})
    ∧ nrows (text_logits out) = ncols (image_logits out)
    ∧ ncols (text_logits out) = nrows (image_logits out)
    ∧ ∀ i j, i < nrows abc3 → j < nrows eye3 →
             entry (text_logits out) j i = entry (image_logits out) i j.
Proof.
  eexists. split.
  - eapply contrastive_loss_intro; reflexivity.
  - eapply (X12_text_logits_transpose single_worker abc3 eye3 7 true
              {[7 := 1%R]}).
    + right. reflexivity.
    + unfold wf, abc3. simpl. repeat constructor.
    + unfold wf, eye3. simpl. repeat constructor.
    + eapply contrastive_loss_intro; reflexivity.
Defined.

(** X13: in an initialised group the logit matrices are as wide as
    the global batch: when the call returns, both have
    [world_size * local batch] columns, with or without a mask. *)
Theorem X13_logits_span_global_batch dist image text p mask bp σ out σ' :
  Dist.is_available dist = true → Dist.is_initialized dist = true →
  contrastive_loss_with_temperature dist image text p mask bp σ
    = (Some out, σ') →
  ncols (image_logits out) = Dist.get_world_size dist * nrows image
  ∧ ncols (text_logits out) = Dist.get_world_size dist * nrows image.
Proof.
  intros Ha Hini H.
  pose proof (returning_call_rows _ _ _ _ _ _ _ _ _ H) as Hn.
  apply contrastive_loss_inv in H as (_ & H).
  destruct H as (ls & li & lt & lb & li' & lt' & lb' & a & b & H).
  destruct H as (Hp & Hl & Hm & _ & _ & ->). simpl.
  assert (ncols li' = ncols li ∧ ncols lt' = ncols lt) as [-> ->].
  { destruct mask as [m|].
    - by apply apply_mask_Some_inv in Hm as (_ & _ & _ & ? & ? & _).
    - simpl in Hm. by injection Hm as <- <- <-. }
  apply logits_and_labels_inv in Hl
    as (img_all & text_all & mi & mt & Hg & Hmi & Hmt & -> & ->).
  apply gather_active_inv in Hg as (Hui & Hut & Hci & Hct & _); [| done..].
  apply cat_rows in Hci, Hct.
  unfold matmul in Hmi, Hmt. repeat case_decide; try done.
  injection Hmi as <-. injection Hmt as <-. simpl. unfold nrows at 1 3.
  rewrite Hci, Hct.
  rewrite (concat_length_uniform _ (nrows text)) by by apply uniform_rows.
  rewrite (concat_length_uniform _ (nrows image)) by by apply uniform_rows.
  rewrite !length_fmap, !contributions_length. split; congruence.
Qed.

Lemma X13_logits_span_global_batch_witness :
  ∃ out,
    contrastive_loss_with_temperature two_workers ab2 eye2 7
      (Some [false; true]) false {[7 := 1%R]} = (Some out, {[7 := 1%R]})
    ∧ ncols (image_logits out) = Dist.get_world_size two_workers * nrows ab2
    ∧ ncols (text_logits out) = Dist.get_world_size two_workers * nrows ab2.
Proof.
  eexists. split.
  - eapply contrastive_loss_intro; reflexivity.
  - eapply (X13_logits_span_global_batch two_workers ab2 eye2 7
              (Some [false; true]) false {[7 := 1%R]}); reflexivity.
Defined.

Section TargetLogit.

Local Open Scope R_scope.

Lemma entry_rows_eq (a b : Tensor2) (i j k : nat) :
  rows a !! i = rows b !! j → entry a i k = entry b j k.
Proof. intros H. unfold entry. by rewrite !(nth_lookup _ _ []), H. Qed.

(** The logit against a global sample only depends on that sample's
    embedding. *)
Lemma spec_logit_same_row (a b b' : Tensor2) (s : R) (i j j' : nat) :
  rows b !! j = rows b' !! j' →
  spec_logit a b s i j = spec_logit a b' s i j'.
Proof.
  intros H. unfold spec_logit. do 2 f_equal.
  apply map_ext. intros k. by rewrite (entry_rows_eq b b' j j' k H).
Qed.

End TargetLogit.

(** X14: the logit that the cross-entropy is trained to raise is the
    similarity of the matching pair: when the call returns without a
    mask, at a rank that belongs to the group, the entry of
    [image_logits] in row [i] and column [labels[i]] is the inner
    product of image [i] with text [i] times the temperature, and the
    entry of [text_logits] there is the same pair the other way
    round. *)
Theorem X14_target_logit_is_matching_pair
    dist image text p bp σ out σ' :
  (Dist.is_available dist = false ∨ Dist.is_initialized dist = false)
  ∨ Dist.get_rank dist < Dist.get_world_size dist →
  wf image → wf text →
  contrastive_loss_with_temperature dist image text p None bp σ
    = (Some out, σ') →
  ∃ ls img_all text_all labels,
    σ !! p = Some ls
    ∧ _gather_embeddings_and_labels dist image text bp
      = Some (img_all, text_all, labels)
    ∧ ∀ i, i < nrows image →
           ∃ y, labels !! i = Some y
                ∧ entry (image_logits out) i y
                  = spec_logit image text (exp ls) i i
                ∧ entry (text_logits out) i y
                  = spec_logit text image (exp ls) i i.
Proof.
  intros Hrank Hwi Hwt H.
  pose proof (returning_call_rows _ _ _ _ _ _ _ _ _ H) as Hn.
  apply contrastive_loss_inv in H as (_ & H).
  destruct H as (ls & li & lt & lb & li' & lt' & lb' & a & b & H).
  destruct H as (Hp & Hl & Hm & _ & _ & ->). simpl.
  injection Hm as <- <- <-.
  apply logits_and_labels_inv in Hl
    as (img_all & text_all & mi & mt & Hg & Hmi & Hmt & -> & ->).
  destruct (matmul_transpose image text_all mi (exp ls) Hwi Hmi)
    as (_ & _ & _ & Hei).
  destruct (matmul_transpose text img_all mt (exp ls) Hwt Hmt)
    as (_ & _ & _ & Het).
  exists ls, img_all, text_all, lb. split; [done |]. split; [done |].
  intros i Hi.
  assert (Hloc : ∃ y, lb !! i = Some y
                      ∧ rows img_all !! y = rows image !! i
                      ∧ rows text_all !! y = rows text !! i).
  { destruct (active_or_not dist) as [[Ha Hini] | Hoff].
    - destruct Hrank as [[Hoff | Hoff] | Hrank]; [congruence.. |].
      by eapply labels_locate_active.
    - by eapply labels_locate_inactive. }
  destruct Hloc as (y & Hy & Hyi & Hyt). exists y. split; [done |].
  assert (Hyi' : y < nrows img_all).
  { apply lookup_lt_is_Some. rewrite Hyi. by apply lookup_lt_is_Some. }
  assert (Hyt' : y < nrows text_all).
  { apply lookup_lt_is_Some. rewrite Hyt.
    apply lookup_lt_is_Some. unfold nrows in *. lia. }
  rewrite Hei, Het by (done || (unfold nrows in *; lia)).
  split; by apply spec_logit_same_row.
Qed.

Lemma X14_target_logit_is_matching_pair_witness :
  ∃ out,
    contrastive_loss_with_temperature two_workers ab2 eye2 7 None false
      {[7 := 1%R]} = (Some out, {[7 := 1%R]})
    ∧ ∃ ls img_all text_all labels,
        ({[7 := 1%R]} : Store) !! 7 = Some ls
        ∧ _gather_embeddings_and_labels two_workers ab2 eye2 false
          = Some (img_all, text_all, labels)
        ∧ ∀ i, i < nrows ab2 →
               ∃ y, labels !! i = Some y
                    ∧ entry (image_logits out) i y
                      = spec_logit ab2 eye2 (exp ls) i i
                    ∧ entry (text_logits out) i y
                      = spec_logit eye2 ab2 (exp ls) i i.
Proof.
  eexists. split.
  - eapply contrastive_loss_intro; reflexivity.
  - eapply (X14_target_logit_is_matching_pair two_workers ab2 eye2 7 false
              {[7 := 1%R]}).
    + right. unfold Dist.get_world_size. simpl. lia.
    + unfold wf, ab2. simpl. repeat constructor.
    + unfold wf, eye2. simpl. repeat constructor.
    + eapply contrastive_loss_intro; reflexivity.
Defined.

(** ** The call returns in a well-formed group *)

Section DistributedReturns.

Context (dist : Dist.t) (image text : Tensor2) (p : nn_Parameter)
        (mask : option BoolTensor) (bp : bool) (σ : Store) (ls : R).

Hypothesis Havailable : Dist.is_available dist = true.
Hypothesis Hinitialized : Dist.is_initialized dist = true.
Hypothesis Hrank : Dist.get_rank dist < Dist.get_world_size dist.
Hypothesis Hworkers :
  Forall (λ w, Dist.same_shape image w.1 ∧ Dist.same_shape text w.2)
         (Dist.workers dist).
Hypothesis Hrows : nrows image = nrows text.
Hypothesis Hcols : ncols image = ncols text.
Hypothesis Hmask : from_option (λ m, length m = nrows image) True mask.
Hypothesis Hparam : σ !! p = Some ls.

Lemma distributed_labels_bound :
  Forall (λ y, y < Dist.get_world_size dist * nrows image)
         (map (λ i, nrows image * Dist.get_rank dist + i)
              (arange (nrows image))).
Proof.
  apply Forall_forall. intros y Hy.
  apply list_elem_of_In, in_map_iff in Hy as (i & <- & Hi).
  apply in_seq in Hi. nia.
Qed.

Lemma distributed_returns :
  ∃ out, contrastive_loss_with_temperature dist image text p mask bp σ
         = (Some out, σ).
Proof.
  pose proof (distributed_gather dist image text (nrows image)
                Havailable Hinitialized Hrank eq_refl (eq_sym Hrows)
                Hworkers bp) as Hg.
  set (img_all := {| ncols := ncols image;
                     rows := concat (rows <$> Dist.contributions dist
                                       Dist.Image image) |}) in Hg.
  set (text_all := {| ncols := ncols text;
                      rows := concat (rows <$> Dist.contributions dist
                                        Dist.Text text) |}) in Hg.
  assert (Hni : nrows img_all = Dist.get_world_size dist * nrows image).
  { unfold nrows at 1. simpl.
    rewrite (concat_length_uniform _ (nrows image)).
    - by rewrite length_fmap, contributions_length.
    - apply uniform_rows. by eapply image_uniform. }
  assert (Hnt : nrows text_all = Dist.get_world_size dist * nrows image).
  { unfold nrows at 1. simpl.
    rewrite (concat_length_uniform _ (nrows text)).
    - by rewrite length_fmap, contributions_length, Hrows.
    - apply uniform_rows. by eapply text_uniform. }
  destruct (scaled_matmul_transpose image text_all (exp ls) Hcols)
    as (mi & Hmi & Hri & Hci).
  destruct (scaled_matmul_transpose text img_all (exp ls) (eq_sym Hcols))
    as (mt & Hmt & Hrt & Hct).
  assert (Hl : logits_and_labels dist image text (exp ls) bp
               = Some (mul_scalar mi (exp ls), mul_scalar mt (exp ls),
                       map (λ i, nrows image * Dist.get_rank dist + i)
                           (arange (nrows image)))).
  { unfold logits_and_labels. rewrite Hg. simpl. by rewrite Hmi, Hmt. }
  destruct (apply_mask_defined mask (mul_scalar mi (exp ls))
              (mul_scalar mt (exp ls))
              (map (λ i, nrows image * Dist.get_rank dist + i)
                   (arange (nrows image))))
    as (li' & lt' & lb' & Hmask' & Hci' & Hct' & Hri' & Hrt' & Hall).
  { by rewrite length_map, arange_length. }
  { by rewrite length_map, arange_length. }
  { rewrite length_map, arange_length. congruence. }
  destruct (cross_entropy_defined li' lb') as [loss_i Hi]; [done | |].
  { apply Hall. rewrite Hci', Hci, Hnt. apply distributed_labels_bound. }
  destruct (cross_entropy_defined lt' lb') as [loss_t Ht]; [done | |].
  { apply Hall. rewrite Hct', Hct, Hni. apply distributed_labels_bound. }
  eexists. by eapply contrastive_loss_intro.
Qed.

End DistributedReturns.

(** X15: in an initialised group the call returns whenever the rank
    belongs to the group, every rank holds batches of the shape of
    the local ones, image and text batches agree in rows and in
    embedding dimension, the mask (if any) is as long as the batch
    and the parameter exists; in particular no label is ever out of
    range for the cross-entropy.  The store is returned unchanged. *)
Theorem X15_distributed_call_returns dist image text p mask bp σ ls :
  Dist.is_available dist = true →
  Dist.is_initialized dist = true →
  Dist.get_rank dist < Dist.get_world_size dist →
  Forall (λ w, Dist.same_shape image w.1 ∧ Dist.same_shape text w.2)
         (Dist.workers dist) →
  nrows image = nrows text →
  ncols image = ncols text →
  from_option (λ m, length m = nrows image) True mask →
  σ !! p = Some ls →
  ∃ out,
    contrastive_loss_with_temperature dist image text p mask bp σ
    = (Some out, σ)
    ∧ nrows (image_logits out) = nrows (text_logits out)
    ∧ ncols (image_logits out) = Dist.get_world_size dist * nrows image.
Proof.
  intros Ha Hi Hr Hw Hn Hd Hm Hp.
  destruct (distributed_returns dist image text p mask bp σ ls)
    as [out Hout]; try done.
  exists out. split; [done |].
  pose proof Hout as H. apply contrastive_loss_inv in H as (_ & H).
  destruct H as (ls' & li & lt & lb & li' & lt' & lb' & a & b & H).
  destruct H as (_ & Hl & Hmask & Hci & Hct & ->). simpl.
  apply cross_entropy_nrows in Hci, Hct. split; [congruence |].
  assert (ncols li' = ncols li) as ->.
  { destruct mask as [m|].
    - by apply apply_mask_Some_inv in Hmask as (_ & _ & _ & ? & _).
    - simpl in Hmask. by injection Hmask as <- <- <-. }
  apply logits_and_labels_inv in Hl
    as (img_all & text_all & mi & mt & Hg & Hmi & _ & -> & _).
  apply gather_active_inv in Hg as (_ & Hut & _ & Hct' & _); [| done..].
  apply cat_rows in Hct'.
  unfold matmul in Hmi. case_decide; [| done]. injection Hmi as <-. simpl.
  unfold nrows at 1. rewrite Hct'.
  rewrite (concat_length_uniform _ (nrows text)) by by apply uniform_rows.
  by rewrite length_fmap, contributions_length, Hn.
Qed.

Lemma X15_distributed_call_returns_witness :
  ∃ out,
    contrastive_loss_with_temperature two_workers ab2 eye2 7
      (Some [true; false]) true {[7 := 1%R]} = (Some out, {[7 := 1%R]})
    ∧ nrows (image_logits out) = nrows (text_logits out)
    ∧ ncols (image_logits out) = Dist.get_world_size two_workers * nrows ab2.
Proof.
  apply (X15_distributed_call_returns two_workers ab2 eye2 7
           (Some [true; false]) true {[7 := 1%R]} 1%R); try reflexivity.
  - unfold Dist.get_world_size. simpl. lia.
  - unfold two_workers. simpl. repeat constructor.
Defined.

Lemma X2_float_gets_fresh_parameter_witness :
  ∃ m, __init__ (Float 10) import_store
       = (Some m, <[logit_scale m := 10%R]> import_store)
       ∧ import_store !! logit_scale m = None
       ∧ ∀ q, is_Some (import_store !! q) →
              q ≠ logit_scale m
              ∧ (<[logit_scale m := 10%R]> import_store) !! q
                = import_store !! q.
Proof. apply (X2_float_gets_fresh_parameter 10%R import_store). Defined.
